(** * Team invitations, membership resolver and permalink previews

    A shallow embedding of three pieces of the server:

    - [api4/team_local.go]: the local-mode invitation handler
      [localInviteUsersToTeam] with its domain matcher
      [isEmailAddressAllowed] and [normalizeDomains];
    - [api4/resolver_team_member.go]: the GraphQL resolver method
      [SidebarCategories];
    - the model file declaring [PreviewPost] and [NewPreviewPost].

    Go strings are byte sequences and are modelled as [string] (a list of
    8-bit characters).  Nil-able pointers are modelled as [option]. *)

From Stdlib Require Import ZArith Ascii String List Bool Lia.
From stdpp Require Import base gmap list strings.

Local Open Scope Z_scope.
Local Open Scope nat_scope.

(** ** Go's [strings] package, as far as the handler uses it *)

(** Byte classes used by the ASCII fast paths of [strings]. *)
Definition RuneSelf : nat := 128.

Definition isASCIIByte (c : ascii) : bool := nat_of_ascii c <? RuneSelf.

Definition isUpperByte (c : ascii) : bool :=
  (65 <=? nat_of_ascii c) && (nat_of_ascii c <=? 90).

(** [c += 'a' - 'A'] on an upper-case ASCII letter. *)
Definition lowerByte (c : ascii) : ascii :=
  if isUpperByte c then ascii_of_nat (nat_of_ascii c + 32) else c.

(** The table [asciiSpace]: tab, newline, vertical tab, form feed,
    carriage return and space. *)
Definition asciiSpace (c : ascii) : bool :=
  existsb (Nat.eqb (nat_of_ascii c)) [9; 10; 11; 12; 13; 32].

Fixpoint all_bytes (p : ascii -> bool) (s : string) : bool :=
  match s with
  | EmptyString => true
  | String c s' => p c && all_bytes p s'
  end.

Fixpoint map_bytes (f : ascii -> ascii) (s : string) : string :=
  match s with
  | EmptyString => EmptyString
  | String c s' => String (f c) (map_bytes f s')
  end.

Definition isASCII (s : string) : bool := all_bytes isASCIIByte s.

(** [strings.HasSuffix]:
    [len(s) >= len(suffix) && s[len(s)-len(suffix):] == suffix]. *)
Definition HasSuffix (s suffix : string) : bool :=
  (String.length suffix <=? String.length s) &&
  String.eqb
    (substring (String.length s - String.length suffix) (String.length suffix) s)
    suffix.

(** [strings.Replace(s, old, new, n)] for a non-empty [old]: the first [n]
    non-overlapping occurrences of [old], scanning from the left, are replaced
    by [new]; a negative [n] puts no limit.  [skip] counts the bytes of a
    matched occurrence that are still to be dropped, [budget] the
    replacements left ([None]: no limit). *)
Fixpoint replaceFrom (skip : nat) (budget : option nat) (old new s : string)
  : string :=
  match s with
  | EmptyString => EmptyString
  | String c s' =>
      match skip with
      | S k => replaceFrom k budget old new s'
      | O =>
          let allowed := match budget with Some O => false | _ => true end in
          if allowed && String.prefix old s
          then new +:+ replaceFrom (String.length old - 1)
                         (option_map Nat.pred budget) old new s'
          else String c (replaceFrom 0 budget old new s')
      end
  end.

Definition Replace (s old new : string) (n : Z) : string :=
  replaceFrom 0 (if (n <? 0)%Z then None else Some (Z.to_nat n)) old new s.

(** [strings.Join(elems, sep)]. *)
Fixpoint Join (elems : list string) (sep : string) : string :=
  match elems with
  | [] => ""
  | [x] => x
  | x :: rest => x +:+ sep +:+ Join rest sep
  end.

(** ASCII path of [strings.TrimSpace]: drop the leading, then the trailing
    bytes of [asciiSpace]. *)
Fixpoint trimLeftSpace (s : string) : string :=
  match s with
  | EmptyString => EmptyString
  | String c s' => if asciiSpace c then trimLeftSpace s' else s
  end.

Fixpoint trimRightSpace (s : string) : string :=
  match s with
  | EmptyString => EmptyString
  | String c s' =>
      match trimRightSpace s' with
      | EmptyString => if asciiSpace c then EmptyString else String c EmptyString
      | t => String c t
      end
  end.

(** ASCII path of [strings.Fields]: the maximal runs of bytes outside
    [asciiSpace], in order.  [fieldsFrom s] is the run that starts at the
    head of [s] (empty when [s] is empty or starts with a space) together
    with the fields after it. *)
Definition consField (w : string) (fs : list string) : list string :=
  match w with
  | EmptyString => fs
  | _ => w :: fs
  end.

Fixpoint fieldsFrom (s : string) : string * list string :=
  match s with
  | EmptyString => (EmptyString, [])
  | String c s' =>
      let '(w, fs) := fieldsFrom s' in
      if asciiSpace c then (EmptyString, consField w fs) else (String c w, fs)
  end.

Definition fieldsASCII (s : string) : list string :=
  let '(w, fs) := fieldsFrom s in consField w fs.

(** On a string made of ASCII bytes only, [ToLower], [TrimSpace] and
    [Fields] stay on their ASCII fast paths, modelled above and below.  On
    any other string their result depends on the UTF-8 decoding and the
    Unicode tables of Go's standard library, which is not code of this
    repository: there the result is taken as a parameter. *)
Class UnicodePaths := {
  (** [strings.ToLower(s)], that is [strings.Map(unicode.ToLower, s)] *)
  unicodeToLower : string -> string;
  (** [strings.TrimSpace(s)] *)
  unicodeTrimSpace : string -> string;
  (** [strings.Fields(s)], that is [strings.FieldsFunc(s, unicode.IsSpace)] *)
  unicodeFields : string -> list string
}.

Section GoStrings.
Context {U : UnicodePaths}.

Definition ToLower (s : string) : string :=
  if isASCII s then map_bytes lowerByte s else unicodeToLower s.

Definition TrimSpace (s : string) : string :=
  if isASCII s then trimRightSpace (trimLeftSpace s) else unicodeTrimSpace s.

Definition Fields (s : string) : list string :=
  if isASCII s then fieldsASCII s else unicodeFields s.

(** ** [api4/team_local.go]: the domain matcher *)

Definition normalizeDomains (domains : string) : list string :=
  Fields (TrimSpace (ToLower
    (Replace (Replace domains "@" " " (-1)) "," " " (-1)))).

(** The inner loop of [isEmailAddressAllowed]: [matched] becomes true at
    the first domain [d] with [HasSuffix(email, "@"+d)], and the loop
    breaks there. *)
Fixpoint matchedAny (email : string) (domains : list string) : bool :=
  match domains with
  | [] => false
  | d :: rest =>
      if HasSuffix email ("@" +:+ d) then true else matchedAny email rest
  end.

Fixpoint isEmailAddressAllowed (email : string) (allowedDomains : list string)
  : bool :=
  match allowedDomains with
  | [] => true
  | restriction :: rest =>
      let domains := normalizeDomains restriction in
      if length domains <=? 0 then isEmailAddressAllowed email rest
      else
        let matched := matchedAny email domains in
        if negb matched then false else isEmailAddressAllowed email rest
  end.

End GoStrings.


(** ** [api4/team_local.go]: the invitation handler *)

Definition StatusBadRequest : Z := 400.
Definition StatusNotFound : Z := 404.
Definition StatusRequestEntityTooLarge : Z := 413.
Definition StatusInternalServerError : Z := 500.
Definition StatusNotImplemented : Z := 501.
Definition StatusServiceUnavailable : Z := 503.

(** [model.AppError], as [model.NewAppError(where, id, params, details,
    status)] fills it. *)
Record AppError := NewAppError {
  Err_Where : string;
  Err_Id : string;
  Err_Params : list (string * string);
  Err_DetailedError : string;
  Err_StatusCode : Z
}.

(** The fields of [model.Team] the handler reads. *)
Record Team := {
  Team_Id : string;
  Team_AllowedDomains : string
}.

Record EmailInviteWithError := {
  Email : string;
  Error : option AppError
}.

(** The error of [Store.Team().Get]: [errors.As(nErr, &nfErr)] holds for
    [ErrNotFound]; the string is [Error()]. *)
Inductive StoreError :=
| ErrNotFound (msg : string)
| ErrOther (msg : string).

(** The error of [EmailService.SendInviteEmails]: what [errors.Is] answers
    for the two sentinel errors, and the text [%v] prints. *)
Record SendError := {
  isNoRateLimiterError : bool;
  isSetupRateLimiterError : bool;
  sendErrorText : string
}.

Inductive MetaValue :=
| MetaString (s : string)
| MetaInt (n : nat)
| MetaStrings (l : list string).

Inductive AuditStatus := Fail | Success.

Record AuditRecord := {
  auditEvent : string;
  auditStatus : AuditStatus;
  auditMeta : gmap string MetaValue
}.

(** What the handler does to its collaborators, in order. *)
Inductive Effect :=
| TeamStoreGet (teamId : string)
| SendInviteEmailsCall (team : Team) (senderName senderUserId : string)
    (invites : list string) (siteURL : string)
| WriteJSON (invitesWithErrors : list EmailInviteWithError)
| WriteStatusOK
| LogAuditRec (rec : AuditRecord).

(** The collaborators and the configuration, none of them in this file of
    the repository. *)
Record Env := {
  (** the error [c.RequireTeamId()] stores in [c.Err], if any *)
  RequireTeamId : option AppError;
  (** [c.Params.TeamId] *)
  Params_TeamId : string;
  (** the error [c.SetInvalidParam(name)] stores *)
  InvalidParamError : string -> AppError;
  EnableEmailInvitations : bool;
  RestrictCreationToDomains : string;
  SiteURL : string;
  IsValidEmail : string -> bool;
  Store_Team_Get : string -> Team + StoreError;
  NewId : string;
  SendInviteEmails :
    Team -> string -> string -> list string -> string -> option SendError;
  EmailInviteWithErrorToString : EmailInviteWithError -> string;
  (** [jsonErr.Error()] when [json.Marshal] fails *)
  jsonMarshalError : list EmailInviteWithError -> option string
}.

Record Request := {
  (** [model.ArrayFromJSON(r.Body)] *)
  Body : list string;
  (** [r.URL.Query().Get("graceful")] *)
  Query_graceful : string
}.

(** The state the handler threads: [c.Err], the local [auditRec] (once
    made) and the effects so far. *)
Record State := {
  Err : option AppError;
  auditRec : option AuditRecord;
  trace : list Effect
}.

Definition initState : State :=
  {| Err := None; auditRec := None; trace := [] |}.

(** A statement either falls through to the next one or is a [return]. *)
Inductive Flow (A : Type) :=
| Next (a : A)
| Return.
Arguments Next {A} a.
Arguments Return {A}.

Definition M (A : Type) : Type := State -> Flow A * State.

Definition ret {A} (a : A) : M A := fun st => (Next a, st).

Definition bind {A B} (m : M A) (k : A -> M B) : M B :=
  fun st =>
    match m st with
    | (Next a, st') => k a st'
    | (Return, st') => (Return, st')
    end.

Notation "x <- m ;; k" := (bind m (fun x => k))
  (at level 90, m at level 80, k at level 200, right associativity).
Notation "m ;;; k" := (bind m (fun _ => k))
  (at level 90, k at level 200, right associativity).

Definition return_ {A} : M A := fun st => (Return, st).

Definition setErr (e : AppError) : M unit :=
  fun st =>
    (Next tt, {| Err := Some e; auditRec := auditRec st; trace := trace st |}).

Definition getErr : M (option AppError) := fun st => (Next (Err st), st).

Definition emit (e : Effect) : M unit :=
  fun st =>
    (Next tt,
     {| Err := Err st; auditRec := auditRec st; trace := trace st ++ [e] |}).

Definition when (b : bool) (m : M unit) : M unit := if b then m else ret tt.

(** [c.MakeAuditRecord(event, audit.Fail)] followed by
    [defer c.LogAuditRec(auditRec)]. *)
Definition MakeAuditRecord (event : string) : M unit :=
  fun st =>
    (Next tt,
     {| Err := Err st;
        auditRec := Some {| auditEvent := event; auditStatus := Fail;
                            auditMeta := ∅ |};
        trace := trace st |}).

Definition updAudit (f : AuditRecord -> AuditRecord) : M unit :=
  fun st =>
    (Next tt,
     {| Err := Err st; auditRec := f <$> auditRec st; trace := trace st |}).

Definition AddMeta (name : string) (val : MetaValue) : M unit :=
  updAudit (fun r =>
    {| auditEvent := auditEvent r; auditStatus := auditStatus r;
       auditMeta := <[name := val]> (auditMeta r) |}).

Definition auditRec_Success : M unit :=
  updAudit (fun r =>
    {| auditEvent := auditEvent r; auditStatus := Success;
       auditMeta := auditMeta r |}).

(** The deferred [c.LogAuditRec(auditRec)] runs when the handler is left,
    if the [defer] statement was reached. *)
Definition runDeferred (st : State) : State :=
  match auditRec st with
  | Some r =>
      {| Err := Err st; auditRec := auditRec st;
         trace := trace st ++ [LogAuditRec r] |}
  | None => st
  end.

(** The [switch] translating the error of [SendInviteEmails]; it is
    written twice in the handler, with the same text. *)
Definition sendErrorToAppError (team : Team) (err : SendError) : AppError :=
  if isNoRateLimiterError err then
    NewAppError "SendInviteEmails" "app.email.no_rate_limiter.app_error" []
      ("team_id=" +:+ Team_Id team) StatusInternalServerError
  else if isSetupRateLimiterError err then
    NewAppError "SendInviteEmails" "app.email.setup_rate_limiter.app_error" []
      ("team_id=" +:+ Team_Id team +:+ ", error=" +:+ sendErrorText err)
      StatusInternalServerError
  else
    NewAppError "SendInviteEmails" "app.email.rate_limit_exceeded.app_error" []
      ("team_id=" +:+ Team_Id team +:+ ", error=" +:+ sendErrorText err)
      StatusRequestEntityTooLarge.

Definition invalidEmailError (key addresses : string) : AppError :=
  NewAppError "localInviteUsersToTeam"
    "api.team.invite_members.invalid_email.app_error" [(key, addresses)] ""
    StatusBadRequest.

Section Handler.
Context {U : UnicodePaths}.
Variable env : Env.

(** The loop that lower-cases [emailList] in place and leaves the handler
    at the first address that is not a valid email. *)
Fixpoint lowerAndValidate (emailList : list string) : M (list string) :=
  match emailList with
  | [] => ret []
  | e :: rest =>
      let email := ToLower e in
      when (negb (IsValidEmail env email))
        (setErr (invalidEmailError "Address" email) ;;; return_) ;;;
      rest' <- lowerAndValidate rest ;;
      ret (email :: rest')
  end.

Definition getTeam : M Team :=
  emit (TeamStoreGet (Params_TeamId env)) ;;;
  match Store_Team_Get env (Params_TeamId env) with
  | inl team => ret team
  | inr (ErrNotFound msg) =>
      setErr (NewAppError "localInviteUsersToTeam"
                "app.team.get.find.app_error" [] msg StatusNotFound) ;;;
      return_
  | inr (ErrOther msg) =>
      setErr (NewAppError "localInviteUsersToTeam"
                "app.team.get.finding.app_error" [] msg
                StatusInternalServerError) ;;;
      return_
  end.

(** [c.App.Srv().EmailService.SendInviteEmails(team, "Administrator",
    "mmctl "+model.NewId(), emails, SiteURL, nil, false)], followed by the
    translation of its error. *)
Definition sendInvites (team : Team) (emails : list string) : M unit :=
  let senderUserId := "mmctl " +:+ NewId env in
  emit (SendInviteEmailsCall team "Administrator" senderUserId emails
          (SiteURL env)) ;;;
  match SendInviteEmails env team "Administrator" senderUserId emails
          (SiteURL env) with
  | Some err => setErr (sendErrorToAppError team err) ;;; return_
  | None => ret tt
  end.

(** The loop of the graceful branch, with its three accumulators. *)
Fixpoint gracefulLoop (allowedDomains emailList : list string)
    (invitesWithErrors : list EmailInviteWithError)
    (goodEmails errList : list string)
  : list EmailInviteWithError * list string * list string :=
  match emailList with
  | [] => (invitesWithErrors, goodEmails, errList)
  | email :: rest =>
      let invite := {| Email := email; Error := None |} in
      if negb (isEmailAddressAllowed email allowedDomains) then
        let invite :=
          {| Email := email;
             Error := Some (invalidEmailError "Addresses" email) |} in
        gracefulLoop allowedDomains rest (invitesWithErrors ++ [invite])
          goodEmails (errList ++ [EmailInviteWithErrorToString env invite])
      else
        gracefulLoop allowedDomains rest (invitesWithErrors ++ [invite])
          (goodEmails ++ [email]) errList
  end.

(** The loop of the strict branch. *)
Fixpoint strictLoop (allowedDomains emailList invalidEmailList : list string)
  : list string :=
  match emailList with
  | [] => invalidEmailList
  | email :: rest =>
      if negb (isEmailAddressAllowed email allowedDomains)
      then strictLoop allowedDomains rest (invalidEmailList ++ [email])
      else strictLoop allowedDomains rest invalidEmailList
  end.

Definition gracefulBranch (team : Team) (allowedDomains emailList : list string)
  : M unit :=
  let '(invitesWithErrors, goodEmails, errList) :=
    gracefulLoop allowedDomains emailList [] [] [] in
  AddMeta "errors" (MetaStrings errList) ;;;
  when (0 <? length goodEmails) (sendInvites team goodEmails) ;;;
  match jsonMarshalError env invitesWithErrors with
  | Some jsonErr =>
      setErr (NewAppError "localInviteUsersToTeam" "api.marshal_error" []
                jsonErr StatusInternalServerError) ;;;
      return_
  | None => emit (WriteJSON invitesWithErrors)
  end.

Definition strictBranch (team : Team) (allowedDomains emailList : list string)
  : M unit :=
  let invalidEmailList := strictLoop allowedDomains emailList [] in
  when (0 <? length invalidEmailList)
    (let s := Join invalidEmailList ", " in
     setErr (invalidEmailError "Addresses" s) ;;; return_) ;;;
  sendInvites team emailList ;;;
  emit WriteStatusOK.

(** [c.RequireTeamId()] leaves its error, if it has one, in [c.Err]. *)
Definition c_RequireTeamId : M unit :=
  match RequireTeamId env with
  | Some e => setErr e
  | None => ret tt
  end.

Definition handlerBody (r : Request) : M unit :=
  c_RequireTeamId ;;;
  err <- getErr ;;
  when (bool_decide (is_Some err)) return_ ;;;
  when (negb (EnableEmailInvitations env))
    (setErr (NewAppError "localInviteUsersToTeam"
               "api.team.invite_members.disabled.app_error" [] ""
               StatusNotImplemented) ;;;
     return_) ;;;
  let emailList := Body r in
  when (length emailList =? 0)
    (setErr (InvalidParamError env "user_email") ;;; return_) ;;;
  emailList <- lowerAndValidate emailList ;;
  MakeAuditRecord "localInviteUsersToTeam" ;;;
  AddMeta "team_id" (MetaString (Params_TeamId env)) ;;;
  AddMeta "count" (MetaInt (length emailList)) ;;;
  AddMeta "emails" (MetaStrings emailList) ;;;
  team <- getTeam ;;
  let allowedDomains :=
    [Team_AllowedDomains team; RestrictCreationToDomains env] in
  (if negb (String.eqb (Query_graceful r) "")
   then gracefulBranch team allowedDomains emailList
   else strictBranch team allowedDomains emailList) ;;;
  auditRec_Success.

Definition localInviteUsersToTeam (r : Request) : State :=
  runDeferred (snd (handlerBody r initState)).

End Handler.

(** Views of the final state. *)
Definition isDispatch (e : Effect) : bool :=
  match e with SendInviteEmailsCall _ _ _ _ _ => true | _ => false end.

Definition isResponse (e : Effect) : bool :=
  match e with WriteJSON _ | WriteStatusOK => true | _ => false end.

Definition dispatches (st : State) : list Effect :=
  List.filter isDispatch (trace st).
Definition responses (st : State) : list Effect :=
  List.filter isResponse (trace st).

(** ** Vocabulary of the statements about the handler *)

Section Vocabulary.
Context {U : UnicodePaths}.
Variable env : Env.

(** The outcome record of one (lower-cased) address in graceful mode. *)
Definition outcomeOf (allowedDomains : list string) (email : string)
  : EmailInviteWithError :=
  {| Email := email;
     Error := if isEmailAddressAllowed email allowedDomains then None
              else Some (invalidEmailError "Addresses" email) |}.

Definition accepted (allowedDomains emails : list string) : list string :=
  List.filter (fun e => isEmailAddressAllowed e allowedDomains) emails.

Definition rejected (allowedDomains emails : list string) : list string :=
  List.filter (fun e => negb (isEmailAddressAllowed e allowedDomains)) emails.

Definition validLower (e : string) : Prop :=
  IsValidEmail env (ToLower e) = true.

(** The requests that get as far as the branch on the mode: the team id
    is there, invitations are enabled, the list is non-empty, every
    lower-cased address is a valid email and the team is found. *)
Definition reachesMode (r : Request) (team : Team) : Prop :=
  RequireTeamId env = None /\
  EnableEmailInvitations env = true /\
  Body r <> [] /\
  Forall validLower (Body r) /\
  Store_Team_Get env (Params_TeamId env) = inl team.

Definition domainsOf (team : Team) : list string :=
  [Team_AllowedDomains team; RestrictCreationToDomains env].

Definition dispatchCall (team : Team) (emails : list string) : Effect :=
  SendInviteEmailsCall team "Administrator" ("mmctl " +:+ NewId env) emails
    (SiteURL env).

Definition dispatchResult (team : Team) (emails : list string)
  : option SendError :=
  SendInviteEmails env team "Administrator" ("mmctl " +:+ NewId env) emails
    (SiteURL env).

End Vocabulary.

(** ** Vocabulary of the statements about [normalizeDomains] *)

(** The bytes the rule syntax treats as separators: ASCII white space,
    the comma and the at sign. *)
Definition isSeparator (c : ascii) : bool :=
  asciiSpace c || Ascii.eqb c "@" || Ascii.eqb c ",".

Definition isSeparators (s : string) : bool := all_bytes isSeparator s.

(** A bare domain: a non-empty ASCII string without separator. *)
Definition isDomainToken (d : string) : bool :=
  negb (String.eqb d "") &&
  all_bytes (fun c => isASCIIByte c && negb (isSeparator c)) d.

(** A rule string written with any mix of separators: each domain is
    preceded by a run of separators and [trail] ends the string. *)
Fixpoint mixedRule (items : list (string * string)) (trail : string) : string :=
  match items with
  | [] => trail
  | (sep, d) :: rest => sep +:+ d +:+ mixedRule rest trail
  end.

(** Its domains are told apart: only the first run of separators may be
    empty. *)
Definition separated (items : list (string * string)) : bool :=
  forallb (fun it => negb (String.eqb (fst it) "")) (tail items).

Definition wellFormedItem (it : string * string) : bool :=
  isSeparators (fst it) && isDomainToken (snd it).

Section RuleVocabulary.
Context {U : UnicodePaths}.

(** The canonical form of the same domains: lower case, one space between
    two domains. *)
Definition canonicalRule (ds : list string) : string :=
  Join (List.map ToLower ds) " ".

End RuleVocabulary.

(** What the two [Replace] calls and the ASCII path of [ToLower] do to one
    byte. *)
Definition replaceByte (a b c : ascii) : ascii := if Ascii.eqb a c then b else c.

Definition normByte (c : ascii) : ascii :=
  lowerByte (replaceByte "," " " (replaceByte "@" " " c)).

(** ** [api4/resolver_team_member.go]: the sidebar categories of a member *)

(** The fields of [model.TeamMember] the resolver reads. *)
Record TeamMember := {
  TeamId : string;
  UserId : string;
  Roles : string
}.

(** [model.SidebarCategoryWithChannels]: its [Id] and, standing for the
    other fields, a display name and the channel ids. *)
Record SidebarCategoryWithChannels := {
  Category_Id : string;
  Category_DisplayName : string;
  Category_Channels : list string
}.

(** [model.OrderedSidebarCategories].  [Categories] is a slice of pointers
    to categories; the store puts no nil pointer in it. *)
Record OrderedSidebarCategories := {
  Categories : list SidebarCategoryWithChannels;
  Order : list string
}.

(** The values of Go's [error] the resolver returns. *)
Inductive ResolverError :=
| CtxError (msg : string)
| AppErr (e : AppError).

(** What [getCtx(ctx)] and the application behind the context answer. *)
Record ResolverEnv := {
  (** the error of [getCtx(ctx)], if any *)
  getCtx : option string;
  (** [c.App.SessionHasPermissionToUser] of the session of the context and
      the user id *)
  SessionHasPermissionToUser : string -> bool;
  (** [c.Err] after [c.SetPermissionError(model.PermissionEditOtherUsers)] *)
  PermissionError : AppError;
  (** [c.App.GetSidebarCategories(userId, teamId)] *)
  GetSidebarCategories : string -> string -> OrderedSidebarCategories + AppError
}.

(** The first loop: [orderMap[category.Id] = category] for every category,
    in the order of the slice. *)
Fixpoint buildOrderMap (categories : list SidebarCategoryWithChannels)
    (orderMap : gmap string SidebarCategoryWithChannels)
  : gmap string SidebarCategoryWithChannels :=
  match categories with
  | [] => orderMap
  | category :: rest =>
      buildOrderMap rest (<[Category_Id category := category]> orderMap)
  end.

(** The second loop: [res = append(res, orderMap[categoryId])]; a key that
    is not in the map yields the nil pointer, [None]. *)
Fixpoint collectInOrder (orderMap : gmap string SidebarCategoryWithChannels)
    (order : list string) (res : list (option SidebarCategoryWithChannels))
  : list (option SidebarCategoryWithChannels) :=
  match order with
  | [] => res
  | categoryId :: rest =>
      collectInOrder orderMap rest (res ++ [orderMap !! categoryId])
  end.

Definition SidebarCategories (env : ResolverEnv) (tm : TeamMember)
  : list (option SidebarCategoryWithChannels) + ResolverError :=
  match getCtx env with
  | Some err => inr (CtxError err)
  | None =>
      if negb (SessionHasPermissionToUser env (UserId tm))
      then inr (AppErr (PermissionError env))
      else
        match GetSidebarCategories env (UserId tm) (TeamId tm) with
        | inr appErr => inr (AppErr appErr)
        | inl categories =>
            let orderMap := buildOrderMap (Categories categories) ∅ in
            let res := collectInOrder orderMap (Order categories) [] in
            inl res
        end
  end.

(** ** The permalink preview ([NewPreviewPost]) *)

(** A call either returns or panics on a nil pointer dereference. *)
Inductive Result (A : Type) :=
| Returns (a : A)
| Panics.
Arguments Returns {A} a.
Arguments Panics {A}.

Section Permalink.
(** [Post], [Channel] and [ChannelType] are declared in other files of the
    package; only the fields read here are needed. *)
Variables Post Channel ChannelType : Type.
Variable Post_Id : Post -> string.
Variable Channel_DisplayName : Channel -> string.
Variable Channel_Type : Channel -> ChannelType.

Record PreviewPost := {
  PostID : string;
  PreviewPost_Post : option Post;
  ChannelDisplayName : string;
  PreviewPost_ChannelType : ChannelType
}.

Definition NewPreviewPost (post : option Post) (channel : option Channel)
  : Result (option PreviewPost) :=
  match post with
  | None => Returns None
  | Some p =>
      match channel with
      | None => Panics
      | Some ch =>
          Returns (Some {| PostID := Post_Id p;
                           PreviewPost_Post := post;
                           ChannelDisplayName := Channel_DisplayName ch;
                           PreviewPost_ChannelType := Channel_Type ch |})
      end
  end.

End Permalink.

(** ** Example data

    The requests below are ASCII, so the Unicode paths are never taken;
    [asciiOnly] leaves such strings alone. *)

Definition asciiOnly : UnicodePaths :=
  {| unicodeToLower := fun s => s;
     unicodeTrimSpace := fun s => s;
     unicodeFields := fun s => [s] |}.

(** A crude stand-in for [model.IsValidEmail]: the address has an at sign. *)
Definition hasAtSign (s : string) : bool :=
  negb (all_bytes (fun c => negb (Ascii.eqb c "@")) s).

Definition teamA : Team :=
  {| Team_Id := "team-a"; Team_AllowedDomains := "a.com" |}.

Definition exampleEnv (send : option SendError) : Env :=
  {| RequireTeamId := None;
     Params_TeamId := "team-a";
     InvalidParamError := fun name =>
       NewAppError "Context" "api.context.invalid_body_param.app_error"
         [("Name", name)] "" StatusBadRequest;
     EnableEmailInvitations := true;
     RestrictCreationToDomains := "";
     SiteURL := "http://localhost:8065";
     IsValidEmail := hasAtSign;
     Store_Team_Get := fun _ => inl teamA;
     NewId := "id0";
     SendInviteEmails := fun _ _ _ _ _ => send;
     EmailInviteWithErrorToString := fun invite =>
       Email invite +:+ ":" +:+
       match Error invite with Some e => Err_Id e | None => "" end;
     jsonMarshalError := fun _ => None |}.

Definition noRateLimiter : SendError :=
  {| isNoRateLimiterError := true;
     isSetupRateLimiterError := false;
     sendErrorText := "email rate limiter not configured" |}.

Definition threeAddresses : list string :=
  ["U1@A.com"; "u2@b.com"; "u3@a.com"].

Definition reqGraceful : Request :=
  {| Body := threeAddresses; Query_graceful := "true" |}.

Definition reqStrict : Request :=
  {| Body := threeAddresses; Query_graceful := "" |}.

Definition reqStrictAccepted : Request :=
  {| Body := ["U1@A.com"; "u3@a.com"]; Query_graceful := "" |}.

Definition reqMalformed : Request :=
  {| Body := ["U1@A.com"; "Not-An-Address"; "u3@a.com"];
     Query_graceful := "true" |}.

Definition categoryOf (id : string) : SidebarCategoryWithChannels :=
  {| Category_Id := id; Category_DisplayName := id; Category_Channels := [] |}.

Definition memberA : TeamMember :=
  {| TeamId := "team-a"; UserId := "user-a"; Roles := "team_user" |}.

Definition exampleResolverEnv (categories : list SidebarCategoryWithChannels)
  : ResolverEnv :=
  {| getCtx := None;
     SessionHasPermissionToUser := fun _ => true;
     PermissionError :=
       NewAppError "Permissions" "api.context.permissions.app_error" [] ""
         403%Z;
     GetSidebarCategories := fun _ _ =>
       inl {| Categories := categories;
              Order := ["favorites"; "gone"; "channels"] |} |}.

(** ** The shapes of a finished invitation request *)

(** The handler left before it made its audit record: an error is set and
    nothing else happened. *)
Definition stoppedEarly (st : State) : Prop :=
  exists e, Err st = Some e /\ auditRec st = None /\ trace st = [].

(** The handler made its audit record: the team was fetched first, then at
    most one call went to the mail service, then at most one response was
    written, and the audit record was logged last.  Either no error is set,
    one response was written and the record says [Success], or an error is
    set, nothing was written and the record says [Fail]. *)
Definition ranAudited (st : State) : Prop :=
  exists teamId disp resp rec,
    trace st = TeamStoreGet teamId :: disp ++ resp ++ [LogAuditRec rec] /\
    (disp = [] \/
     exists team senderName senderUserId invites siteURL,
       disp = [SendInviteEmailsCall team senderName senderUserId invites
                 siteURL]) /\
    ((Err st = None /\ auditStatus rec = Success /\
      (resp = [WriteStatusOK] \/ exists invites, resp = [WriteJSON invites])) \/
     (exists e, Err st = Some e /\ auditStatus rec = Fail /\ resp = [])).

(** ** Vocabulary of the further statements about the rules *)

(** What every byte of a normalised ASCII rule satisfies: ASCII, not an at
    sign, not a comma, not an upper-case letter. *)
Definition isNormalByte (c : ascii) : bool :=
  isASCIIByte c && negb (Ascii.eqb c "@") && negb (Ascii.eqb c ",") &&
  negb (isUpperByte c).

(** A lower-case string: [lowerByte] changes none of its bytes. *)
Definition isLower (s : string) : bool :=
  all_bytes (fun c => negb (isUpperByte c)) s.

(** A word: a non-empty ASCII string without white space. *)
Definition isWord (s : string) : bool :=
  negb (String.eqb s "") &&
  all_bytes (fun c => isASCIIByte c && negb (asciiSpace c)) s.

(** ** [api4/resolver_team_member.go]: the other resolver methods *)

(** The last category of the slice that carries the id, if any. *)
Definition lastWithId (id : string) (categories : list SidebarCategoryWithChannels)
  : option SidebarCategoryWithChannels :=
  last (List.filter (fun c => String.eqb (Category_Id c) id) categories).

Section ResolverDelegates.
Context {U : UnicodePaths}.
(** The GraphQL user wrapper and [model.Role] are declared in other files,
    and so are the three loaders the methods delegate to. *)
Variables GraphQLUser Role : Type.
Variable getGraphQLTeam : string -> Team + ResolverError.
Variable getGraphQLUser : string -> GraphQLUser + ResolverError.
Variable getGraphQLRoles : list string -> list Role + ResolverError.

Definition TeamMember_Team (tm : TeamMember) : Team + ResolverError :=
  getGraphQLTeam (TeamId tm).

Definition TeamMember_User (tm : TeamMember) : GraphQLUser + ResolverError :=
  getGraphQLUser (UserId tm).

Definition Roles_ (env : ResolverEnv) (tm : TeamMember)
  : list Role + ResolverError :=
  match getCtx env with
  | Some err => inr (CtxError err)
  | None => getGraphQLRoles (Fields (Roles tm))
  end.

End ResolverDelegates.

(** ** [api4/team_local.go]: deleting and creating a team *)

(** [model.Team] as these two handlers see it: the fields of [Team] above
    and the [Email] field that the creation handler rewrites. *)
Record TeamWithEmail := {
  Team_Fields : Team;
  Team_Email : string
}.

Record TeamAuditRecord := {
  teamAuditEvent : string;
  teamAuditStatus : AuditStatus;
  teamAuditMeta : gmap string TeamWithEmail
}.

(** What the two handlers do to their collaborators, in order. *)
Inductive TeamEffect :=
| GetTeamCall (teamId : string)
| PermanentDeleteTeamIdCall (teamId : string)
| SoftDeleteTeamCall (teamId : string)
| CreateTeamCall (team : TeamWithEmail)
| ReturnStatusOK
| WriteHeader (status : Z)
| EncodeCall (rteam : TeamWithEmail)
| Warn (msg : string)
| LogTeamAuditRec (rec : TeamAuditRecord).

Record TeamState := {
  team_Err : option AppError;
  team_trace : list TeamEffect
}.

Definition StatusCreated : Z := 201.

Definition team_AddMeta (name : string) (val : TeamWithEmail)
    (rec : TeamAuditRecord) : TeamAuditRecord :=
  {| teamAuditEvent := teamAuditEvent rec;
     teamAuditStatus := teamAuditStatus rec;
     teamAuditMeta := <[name := val]> (teamAuditMeta rec) |}.

Definition team_Success (rec : TeamAuditRecord) : TeamAuditRecord :=
  {| teamAuditEvent := teamAuditEvent rec;
     teamAuditStatus := Success;
     teamAuditMeta := teamAuditMeta rec |}.

Definition team_MakeAuditRecord (event : string) : TeamAuditRecord :=
  {| teamAuditEvent := event; teamAuditStatus := Fail; teamAuditMeta := ∅ |}.

Record DeleteEnv := {
  (** the error [c.RequireTeamId()] stores in [c.Err], if any *)
  del_RequireTeamId : option AppError;
  (** [c.Params.TeamId] and [c.Params.Permanent] *)
  del_TeamId : string;
  del_Permanent : bool;
  App_GetTeam : string -> TeamWithEmail + AppError;
  App_PermanentDeleteTeamId : string -> option AppError;
  App_SoftDeleteTeam : string -> option AppError
}.

Definition localDeleteTeam (env : DeleteEnv) : TeamState :=
  match del_RequireTeamId env with
  | Some e => {| team_Err := Some e; team_trace := [] |}
  | None =>
      let auditRec := team_MakeAuditRecord "localDeleteTeam" in
      let teamId := del_TeamId env in
      let auditRec :=
        match App_GetTeam env teamId with
        | inl team => team_AddMeta "team" team auditRec
        | inr _ => auditRec
        end in
      let '(call, err) :=
        if del_Permanent env
        then (PermanentDeleteTeamIdCall teamId,
              App_PermanentDeleteTeamId env teamId)
        else (SoftDeleteTeamCall teamId, App_SoftDeleteTeam env teamId) in
      match err with
      | Some e =>
          {| team_Err := Some e;
             team_trace := [GetTeamCall teamId; call; LogTeamAuditRec auditRec] |}
      | None =>
          let auditRec := team_Success auditRec in
          {| team_Err := None;
             team_trace := [GetTeamCall teamId; call; ReturnStatusOK;
                            LogTeamAuditRec auditRec] |}
      end
  end.

Record CreateEnv := {
  (** the team [json.NewDecoder(r.Body).Decode(&team)] fills, [None] when
      it returns an error *)
  decodeTeam : option TeamWithEmail;
  (** the error [c.SetInvalidParam(name)] stores *)
  create_InvalidParamError : string -> AppError;
  (** [c.App.CreateTeam(c.AppContext, &team)]: the team as the call leaves
      it behind the pointer, and what the call returns *)
  App_CreateTeam : TeamWithEmail -> TeamWithEmail * (TeamWithEmail + AppError);
  (** the error of [json.NewEncoder(w).Encode(rteam)], if any *)
  encodeError : TeamWithEmail -> option string
}.

Section CreateTeam.
Context {U : UnicodePaths}.

Definition localCreateTeam (env : CreateEnv) : TeamState :=
  match decodeTeam env with
  | None =>
      {| team_Err := Some (create_InvalidParamError env "team");
         team_trace := [] |}
  | Some team =>
      let team :=
        {| Team_Fields := Team_Fields team;
           Team_Email := ToLower (Team_Email team) |} in
      let auditRec := team_MakeAuditRecord "localCreateTeam" in
      let auditRec := team_AddMeta "team" team auditRec in
      let '(team', result) := App_CreateTeam env team in
      match result with
      | inr err =>
          {| team_Err := Some err;
             team_trace := [CreateTeamCall team; LogTeamAuditRec auditRec] |}
      | inl rteam =>
          let auditRec := team_Success auditRec in
          let auditRec := team_AddMeta "team" team' auditRec in
          let warn :=
            match encodeError env rteam with
            | Some _ => [Warn "Error while writing response"]
            | None => []
            end in
          {| team_Err := None;
             team_trace :=
               [CreateTeamCall team; WriteHeader StatusCreated;
                EncodeCall rteam] ++ warn ++ [LogTeamAuditRec auditRec] |}
      end
  end.

End CreateTeam.

Definition isDeleteCall (e : TeamEffect) : bool :=
  match e with
  | PermanentDeleteTeamIdCall _ | SoftDeleteTeamCall _ => true
  | _ => false
  end.

Definition isCreateCall (e : TeamEffect) : bool :=
  match e with CreateTeamCall _ => true | _ => false end.

(** ** Further example data *)

Definition exampleEnvWith (enabled : bool) (store : Team + StoreError)
    (send : option SendError) (marshal : option string) : Env :=
  {| RequireTeamId := None;
     Params_TeamId := "team-a";
     InvalidParamError := InvalidParamError (exampleEnv send);
     EnableEmailInvitations := enabled;
     RestrictCreationToDomains := "";
     SiteURL := "http://localhost:8065";
     IsValidEmail := hasAtSign;
     Store_Team_Get := fun _ => store;
     NewId := "id0";
     SendInviteEmails := fun _ _ _ _ _ => send;
     EmailInviteWithErrorToString :=
       EmailInviteWithErrorToString (exampleEnv send);
     jsonMarshalError := fun _ => marshal |}.

Definition setupRateLimiter : SendError :=
  {| isNoRateLimiterError := false;
     isSetupRateLimiterError := true;
     sendErrorText := "unable to setup email rate limiter" |}.

Definition reqEmpty : Request := {| Body := []; Query_graceful := "" |}.

(** A strict batch of four addresses of which the second and the fourth
    fail the domain check. *)
Definition reqStrictTwoRejected : Request :=
  {| Body := ["U1@A.com"; "u2@b.com"; "u3@a.com"; "U4@C.org"];
     Query_graceful := "" |}.

Definition reqGracefulRejected : Request :=
  {| Body := ["U2@B.com"]; Query_graceful := "true" |}.

Definition reqGracefulOtherCase : Request :=
  {| Body := ["u1@a.COM"; "U2@b.com"; "u3@A.com"]; Query_graceful := "true" |}.

Definition categoryNamed (id name : string) : SidebarCategoryWithChannels :=
  {| Category_Id := id; Category_DisplayName := name; Category_Channels := [] |}.

Definition resolverEnvWith (categories : list SidebarCategoryWithChannels)
    (order : list string) : ResolverEnv :=
  {| getCtx := None;
     SessionHasPermissionToUser := fun _ => true;
     PermissionError := PermissionError (exampleResolverEnv []);
     GetSidebarCategories := fun _ _ =>
       inl {| Categories := categories; Order := order |} |}.

Definition memberWithRoles (roles : string) : TeamMember :=
  {| TeamId := "team-a"; UserId := "user-a"; Roles := roles |}.

(** A loader that answers with the names it was asked for. *)
Definition echoRoles (names : list string) : list string + ResolverError :=
  inl names.

Definition teamWithEmail (email : string) : TeamWithEmail :=
  {| Team_Fields := teamA; Team_Email := email |}.

Definition exampleDeleteEnv (permanent : bool) : DeleteEnv :=
  {| del_RequireTeamId := None;
     del_TeamId := "team-a";
     del_Permanent := permanent;
     App_GetTeam := fun _ =>
       inr (NewAppError "GetTeam" "app.team.get.find.app_error" [] ""
              StatusNotFound);
     App_PermanentDeleteTeamId := fun _ => None;
     App_SoftDeleteTeam := fun _ => None |}.

(** [CreateTeam] gives the team an id, behind the pointer and in what it
    returns. *)
Definition exampleCreateEnv (encode : option string) : CreateEnv :=
  {| decodeTeam := Some (teamWithEmail "Admin@A.com");
     create_InvalidParamError := fun name =>
       NewAppError "Context" "api.context.invalid_body_param.app_error"
         [("Name", name)] "" StatusBadRequest;
     App_CreateTeam := fun team =>
       let saved :=
         {| Team_Fields := {| Team_Id := "new-id";
                              Team_AllowedDomains :=
                                Team_AllowedDomains (Team_Fields team) |};
            Team_Email := Team_Email team |} in
       (saved, inl saved);
     encodeError := fun _ => encode |}.

(** * Proofs *)

(** ** Facts about the handler's loops *)

Section HandlerFacts.
Context {U : UnicodePaths}.
Variable env : Env.

Lemma lowerAndValidate_ok emailList st :
  Forall (validLower env) emailList ->
  lowerAndValidate env emailList st = (Next (List.map ToLower emailList), st).
Proof.
  induction 1 as [|e rest He _ IH]; [reflexivity|].
  cbn [lowerAndValidate List.map]. unfold bind at 1.
  red in He. rewrite He. cbn. unfold bind at 1. rewrite IH. reflexivity.
Qed.

Lemma lowerAndValidate_bad l1 e l2 st :
  Forall (validLower env) l1 ->
  IsValidEmail env (ToLower e) = false ->
  lowerAndValidate env (l1 ++ e :: l2) st =
    (Return, {| Err := Some (invalidEmailError "Address" (ToLower e));
                auditRec := auditRec st; trace := trace st |}).
Proof.
  intros H1 He. induction H1 as [|a rest Ha _ IH].
  - cbn [app lowerAndValidate]. unfold bind at 1. rewrite He. reflexivity.
  - cbn [app lowerAndValidate]. unfold bind at 1.
    red in Ha. rewrite Ha. cbn. unfold bind at 1. rewrite IH. reflexivity.
Qed.

Lemma first_invalid (l : list string) :
  Exists (fun a => IsValidEmail env (ToLower a) = false) l ->
  exists l1 e l2,
    l = l1 ++ e :: l2 /\ Forall (validLower env) l1 /\
    IsValidEmail env (ToLower e) = false.
Proof.
  induction l as [|a l IH]; intros Hex; [inversion Hex|].
  destruct (IsValidEmail env (ToLower a)) eqn:Ha.
  - inversion Hex as [? ? Hbad|? ? Hrest]; subst; [congruence|].
    destruct (IH Hrest) as (l1 & e & l2 & -> & Hl1 & He).
    exists (a :: l1), e, l2. repeat split; [by constructor | done].
  - exists [], a, l. repeat split; [constructor | done].
Qed.

Lemma gracefulLoop_spec ad emails invites good errs :
  gracefulLoop env ad emails invites good errs =
    (invites ++ List.map (outcomeOf ad) emails,
     good ++ accepted ad emails,
     errs ++ List.map (fun e => EmailInviteWithErrorToString env (outcomeOf ad e))
               (rejected ad emails)).
Proof.
  revert invites good errs.
  induction emails as [|e rest IH]; intros invites good errs.
  - cbn. by rewrite !app_nil_r.
  - cbn [gracefulLoop]. unfold accepted, rejected, outcomeOf in *.
    cbn [List.map List.filter].
    destruct (isEmailAddressAllowed e ad) eqn:He; cbn [negb];
      rewrite IH; cbn [List.map]; rewrite ?He; by rewrite <- !app_assoc.
Qed.

Lemma strictLoop_spec ad emails acc :
  strictLoop ad emails acc = acc ++ rejected ad emails.
Proof.
  revert acc. induction emails as [|e rest IH]; intros acc.
  - cbn. by rewrite app_nil_r.
  - cbn [strictLoop]. unfold rejected in *. cbn [List.filter].
    destruct (negb (isEmailAddressAllowed e ad)); rewrite IH;
      [by rewrite <- app_assoc | done].
Qed.

Lemma length_pos_nonnil {A} (l : list A) : (0 <? length l) = true <-> l <> [].
Proof. destruct l; cbn; split; (done || congruence). Qed.

Lemma nonnil_length_eqb {A} (l : list A) : l <> [] -> (length l =? 0) = false.
Proof. by destruct l. Qed.

(** The state in which the branch on the mode starts. *)
Lemma handlerBody_reaches r team :
  reachesMode env r team ->
  handlerBody env r initState =
    ((if negb (String.eqb (Query_graceful r) "")
      then gracefulBranch env team (domainsOf env team) (List.map ToLower (Body r))
      else strictBranch env team (domainsOf env team) (List.map ToLower (Body r))) ;;;
     auditRec_Success)
      {| Err := None;
         auditRec := Some
           {| auditEvent := "localInviteUsersToTeam"; auditStatus := Fail;
              auditMeta :=
                <["emails" := MetaStrings (List.map ToLower (Body r))]>
                  (<["count" := MetaInt (length (List.map ToLower (Body r)))]>
                     (<["team_id" := MetaString (Params_TeamId env)]> ∅)) |};
         trace := [TeamStoreGet (Params_TeamId env)] |}.
Proof.
  intros (Hreq & Hen & Hne & Hval & Hteam).
  unfold handlerBody, c_RequireTeamId, bind, getErr, when. cbn.
  rewrite Hreq, Hen. cbn.
  rewrite (nonnil_length_eqb _ Hne). cbn.
  rewrite (lowerAndValidate_ok _ _ Hval). cbn.
  unfold getTeam, bind. cbn. rewrite Hteam. cbn. reflexivity.
Qed.

Lemma strictBranch_rejects team emails st :
  rejected (domainsOf env team) emails <> [] ->
  strictBranch env team (domainsOf env team) emails st =
    (Return,
     {| Err := Some (invalidEmailError "Addresses"
                       (Join (rejected (domainsOf env team) emails) ", "));
        auditRec := auditRec st; trace := trace st |}).
Proof.
  intros Hrej. unfold strictBranch. rewrite strictLoop_spec. cbn [app].
  apply length_pos_nonnil in Hrej. unfold bind at 1. rewrite Hrej. reflexivity.
Qed.

Lemma strictBranch_sends team emails st :
  rejected (domainsOf env team) emails = [] ->
  strictBranch env team (domainsOf env team) emails st =
    match dispatchResult env team emails with
    | Some err =>
        (Return,
         {| Err := Some (sendErrorToAppError team err); auditRec := auditRec st;
            trace := trace st ++ [dispatchCall env team emails] |})
    | None =>
        (Next tt,
         {| Err := Err st; auditRec := auditRec st;
            trace := (trace st ++ [dispatchCall env team emails])
                       ++ [WriteStatusOK] |})
    end.
Proof.
  intros Hrej. unfold strictBranch. rewrite strictLoop_spec, Hrej. cbn.
  unfold bind, sendInvites, dispatchResult, dispatchCall, bind. cbn.
  destruct (SendInviteEmails env _ _ _ _ _); reflexivity.
Qed.

Lemma gracefulBranch_spec team emails st :
  gracefulBranch env team (domainsOf env team) emails st =
    let ad := domainsOf env team in
    let outcomes := List.map (outcomeOf ad) emails in
    let good := accepted ad emails in
    let st1 := snd (AddMeta "errors"
      (MetaStrings (List.map
         (fun e => EmailInviteWithErrorToString env (outcomeOf ad e))
         (rejected ad emails))) st) in
    let finish st2 :=
      match jsonMarshalError env outcomes with
      | Some jsonErr =>
          (Return,
           {| Err := Some (NewAppError "localInviteUsersToTeam"
                             "api.marshal_error" [] jsonErr
                             StatusInternalServerError);
              auditRec := auditRec st2; trace := trace st2 |})
      | None =>
          (Next tt,
           {| Err := Err st2; auditRec := auditRec st2;
              trace := trace st2 ++ [WriteJSON outcomes] |})
      end in
    match good with
    | [] => finish st1
    | _ =>
        match dispatchResult env team good with
        | Some err =>
            (Return,
             {| Err := Some (sendErrorToAppError team err);
                auditRec := auditRec st1;
                trace := trace st1 ++ [dispatchCall env team good] |})
        | None =>
            finish {| Err := Err st1; auditRec := auditRec st1;
                      trace := trace st1 ++ [dispatchCall env team good] |}
        end
    end.
Proof.
  unfold gracefulBranch. rewrite gracefulLoop_spec. cbn [app].
  cbv zeta. unfold bind at 1. cbn [AddMeta updAudit snd].
  destruct (accepted (domainsOf env team) emails) as [|g good] eqn:Hgood.
  - cbn. unfold bind. cbn.
    destruct (jsonMarshalError env _); reflexivity.
  - cbn [length Nat.ltb Nat.leb when]. unfold bind at 1.
    unfold sendInvites, dispatchResult, dispatchCall. unfold bind at 1 2. cbn.
    destruct (SendInviteEmails env _ _ _ _ _); cbn.
    + unfold bind. reflexivity.
    + unfold bind. cbn. destruct (jsonMarshalError env _); reflexivity.
Qed.


(** The handler stops in the validation loop, before it does anything
    else, at the first address whose lower-cased form is not valid. *)
Lemma handler_stops_at_invalid r l1 e l2 :
  RequireTeamId env = None ->
  EnableEmailInvitations env = true ->
  Body r = l1 ++ e :: l2 ->
  Forall (validLower env) l1 ->
  IsValidEmail env (ToLower e) = false ->
  localInviteUsersToTeam env r =
    {| Err := Some (invalidEmailError "Address" (ToLower e));
       auditRec := None;
       trace := [] |}.
Proof.
  intros Hreq Hen Hbody Hl1 He.
  unfold localInviteUsersToTeam, handlerBody, c_RequireTeamId, bind, getErr,
    when. cbn.
  rewrite Hreq, Hen. cbn. rewrite Hbody.
  rewrite (nonnil_length_eqb (l1 ++ e :: l2)) by (by destruct l1). cbn.
  rewrite (lowerAndValidate_bad l1 e l2 _ Hl1 He). reflexivity.
Qed.

End HandlerFacts.

(** ** The claims about the invitation handler *)

Section HandlerClaims.
Context {U : UnicodePaths}.
Variable env : Env.

Lemma graceful_selected (r : Request) :
  Query_graceful r <> "" -> negb (String.eqb (Query_graceful r) "") = true.
Proof. intros Hq. by apply negb_true_iff, String.eqb_neq. Qed.

(** C1, as the code has it.  Graceful mode, for a request that reaches the
    branch on the mode: the mail service is called exactly once, with the
    addresses that pass the domain check, and not at all when none passes;
    the outcome list has one record per address, in input order, with no
    error for an address that passes and the per-address error otherwise;
    and when the call was not made or succeeded (and the list could be
    serialised) that list is the response and [c.Err] stays nil. *)
Theorem graceful_mode_outcomes (r : Request) (team : Team) :
  reachesMode env r team ->
  Query_graceful r <> "" ->
  let ad := domainsOf env team in
  let emails := List.map ToLower (Body r) in
  let good := accepted ad emails in
  let outcomes := List.map (outcomeOf ad) emails in
  let final := localInviteUsersToTeam env r in
  dispatches final =
    match good with [] => [] | _ => [dispatchCall env team good] end /\
  length outcomes = length (Body r) /\
  (forall i e, emails !! i = Some e ->
     outcomes !! i =
       Some {| Email := e;
               Error := if isEmailAddressAllowed e ad then None
                        else Some (invalidEmailError "Addresses" e) |}) /\
  (good = [] \/ dispatchResult env team good = None ->
   jsonMarshalError env outcomes = None ->
   Err final = None /\ responses final = [WriteJSON outcomes]).
Proof.
  intros Hreach Hmode. cbv zeta. unfold localInviteUsersToTeam.
  rewrite (handlerBody_reaches env r team Hreach), (graceful_selected r Hmode).
  unfold bind. rewrite gracefulBranch_spec. cbv zeta.
  split; [|split; [|split]].
  - destruct (accepted _ _) as [|g good]; cbn.
    + destruct (jsonMarshalError env _); reflexivity.
    + destruct (dispatchResult env team _); cbn;
        [|destruct (jsonMarshalError env _)]; reflexivity.
  - by rewrite !length_map.
  - intros i e Hi. rewrite list_lookup_fmap, Hi. reflexivity.
  - intros Hsent Hjson. rewrite Hjson.
    destruct (accepted _ _) as [|g good]; cbn; [done|].
    destruct Hsent as [|Hsent]; [done|]. rewrite Hsent. cbn. done.
Qed.

(** C2.  Strict mode, for a request that reaches the branch on the mode:
    when some lower-cased address fails the domain check, [c.Err] is the one
    aggregate error [api.team.invite_members.invalid_email.app_error] with
    status 400, whose parameter [Addresses] is the list of all rejected
    addresses joined with [", "]; no call reaches the mail service and
    nothing is written; when none fails, the mail service is called once,
    with the full lower-cased list. *)
Theorem strict_mode_all_or_nothing (r : Request) (team : Team) :
  reachesMode env r team ->
  Query_graceful r = "" ->
  let emails := List.map ToLower (Body r) in
  let bad := rejected (domainsOf env team) emails in
  let final := localInviteUsersToTeam env r in
  (bad <> [] ->
     Err final =
       Some (NewAppError "localInviteUsersToTeam"
               "api.team.invite_members.invalid_email.app_error"
               [("Addresses", Join bad ", ")] "" StatusBadRequest) /\
     dispatches final = [] /\ responses final = []) /\
  (bad = [] -> dispatches final = [dispatchCall env team emails]).
Proof.
  intros Hreach Hmode. cbv zeta. unfold localInviteUsersToTeam.
  rewrite (handlerBody_reaches env r team Hreach), Hmode.
  cbn [String.eqb negb]. unfold bind.
  split; intros Hbad.
  - rewrite (strictBranch_rejects env team _ _ Hbad). cbn. done.
  - rewrite (strictBranch_sends env team _ _ Hbad). cbn.
    destruct (dispatchResult env team _); reflexivity.
Qed.

(** C6.  Graceful mode, at least one address passes the domain check and
    the call to the mail service fails: [c.Err] is the translation of that
    failure, the outcome list is not written (nothing is), and the audit
    record is logged as failed. *)
Theorem graceful_dispatch_failure_discards_outcomes
    (r : Request) (team : Team) (err : SendError) :
  reachesMode env r team ->
  Query_graceful r <> "" ->
  accepted (domainsOf env team) (List.map ToLower (Body r)) <> [] ->
  dispatchResult env team
    (accepted (domainsOf env team) (List.map ToLower (Body r))) = Some err ->
  let final := localInviteUsersToTeam env r in
  Err final = Some (sendErrorToAppError team err) /\
  responses final = [] /\
  (exists rec, last (trace final) = Some (LogAuditRec rec) /\
               auditStatus rec = Fail).
Proof.
  intros Hreach Hmode Hgood Hsend. cbv zeta. unfold localInviteUsersToTeam.
  rewrite (handlerBody_reaches env r team Hreach), (graceful_selected r Hmode).
  unfold bind. rewrite gracefulBranch_spec. cbv zeta.
  destruct (accepted _ _) as [|g good] eqn:Hacc; [done|].
  rewrite Hsend. cbn. repeat split. eexists. split; reflexivity.
Qed.

(** C8.  When the lower-cased form of some address is not a valid email,
    the handler stops at the first such address, whatever the mode:
    [c.Err] names that lower-cased address, no audit record was made, and
    no collaborator was called (the team, and with it the domain rules,
    was not even fetched). *)
Theorem invalid_format_aborts_batch (r : Request) :
  RequireTeamId env = None ->
  EnableEmailInvitations env = true ->
  Exists (fun a => IsValidEmail env (ToLower a) = false) (Body r) ->
  exists l1 e l2,
    Body r = l1 ++ e :: l2 /\
    Forall (validLower env) l1 /\
    IsValidEmail env (ToLower e) = false /\
    localInviteUsersToTeam env r =
      {| Err := Some (NewAppError "localInviteUsersToTeam"
                        "api.team.invite_members.invalid_email.app_error"
                        [("Address", ToLower e)] "" StatusBadRequest);
         auditRec := None;
         trace := [] |}.
Proof.
  intros Hreq Hen Hex.
  destruct (first_invalid env _ Hex) as (l1 & e & l2 & Hbody & Hl1 & He).
  exists l1, e, l2. repeat split; try done.
  by apply (handler_stops_at_invalid env r l1 e l2).
Qed.

End HandlerClaims.

Section DispatchErrors.
Context {U : UnicodePaths}.
Variable env : Env.

Lemma valid_or_invalid (l : list string) :
  Forall (validLower env) l \/
  Exists (fun a => IsValidEmail env (ToLower a) = false) l.
Proof.
  induction l as [|a l [IH|IH]].
  - left. constructor.
  - destruct (IsValidEmail env (ToLower a)) eqn:Ha.
    + left. by constructor.
    + right. by constructor.
  - right. by constructor.
Qed.

(** Either the request reaches the branch on the mode, or the handler
    leaves before any call to the mail service. *)
Lemma reaches_or_no_dispatch (r : Request) :
  (exists team, reachesMode env r team) \/
  dispatches (localInviteUsersToTeam env r) = [].
Proof.
  unfold reachesMode.
  destruct (RequireTeamId env) as [e|] eqn:Hreq.
  { right. unfold localInviteUsersToTeam, handlerBody, c_RequireTeamId, bind,
      getErr, when.
    cbn. rewrite Hreq. reflexivity. }
  destruct (EnableEmailInvitations env) eqn:Hen; cycle 1.
  { right. unfold localInviteUsersToTeam, handlerBody, c_RequireTeamId, bind,
      getErr, when.
    cbn. rewrite Hreq, Hen. reflexivity. }
  destruct (Body r) as [|a l] eqn:Hbody.
  { right. unfold localInviteUsersToTeam, handlerBody, c_RequireTeamId, bind,
      getErr, when.
    cbn. rewrite Hreq, Hen, Hbody. reflexivity. }
  destruct (valid_or_invalid (Body r)) as [Hval|Hbad]; cycle 1.
  { right.
    destruct (first_invalid env _ Hbad) as (l1 & e & l2 & Hb & Hl1 & He).
    by rewrite (handler_stops_at_invalid env r l1 e l2 Hreq Hen Hb Hl1 He). }
  destruct (Store_Team_Get env (Params_TeamId env)) as [team|e] eqn:Hteam.
  { left. exists team. rewrite Hbody in Hval. repeat split; done. }
  right. unfold localInviteUsersToTeam, handlerBody, c_RequireTeamId, bind,
    getErr, when.
  cbn. rewrite Hreq, Hen. cbn.
  rewrite (nonnil_length_eqb (Body r)) by (by rewrite Hbody). cbn.
  rewrite (lowerAndValidate_ok env _ _ Hval). cbn.
  unfold getTeam, bind. cbn. rewrite Hteam. destruct e; reflexivity.
Qed.


(** Whatever call to the mail service the handler makes, a failure of that
    call ends up in [c.Err], translated by the [switch]. *)
Lemma dispatch_failure_reported (r : Request) (team : Team) (call : Effect) :
  reachesMode env r team ->
  In call (dispatches (localInviteUsersToTeam env r)) ->
  exists emails,
    call = dispatchCall env team emails /\
    forall err, dispatchResult env team emails = Some err ->
      Err (localInviteUsersToTeam env r) = Some (sendErrorToAppError team err).
Proof.
  intros Hreach. unfold localInviteUsersToTeam.
  rewrite (handlerBody_reaches env r team Hreach). unfold bind.
  destruct (negb (String.eqb (Query_graceful r) "")).
  - rewrite gracefulBranch_spec. cbv zeta.
    destruct (accepted _ _) as [|g good] eqn:Hacc.
    { destruct (jsonMarshalError env _); cbn; intros []. }
    destruct (dispatchResult env team (g :: good)) as [err|] eqn:Hsend.
    + cbn. intros [<-|[]]. exists (g :: good). split; [done|].
      intros err' Herr'. congruence.
    + destruct (jsonMarshalError env _); cbn; (intros [<-|[]]);
        exists (g :: good); (split; [done|]); intros err' Herr'; congruence.
  - destruct (rejected (domainsOf env team) (List.map ToLower (Body r)))
      as [|b bad] eqn:Hbad.
    + rewrite (strictBranch_sends env team _ _ Hbad).
      destruct (dispatchResult env team _) as [err|] eqn:Hsend;
        cbn; (intros [<-|[]]); eexists; (split; [done|]);
        intros err' Herr'; congruence.
    + rewrite (strictBranch_rejects env team) by (by rewrite Hbad).
      cbn. intros [].
Qed.

(** C5, as the code has it.  Whenever the handler calls the mail service
    (in either mode) and the call fails with [NoRateLimiterError], [c.Err]
    is the error [app.email.no_rate_limiter.app_error] with status
    [http.StatusInternalServerError] (500). *)
Theorem no_rate_limiter_is_internal_server_error
    (r : Request) (team : Team) (senderName senderUserId : string)
    (invites : list string) (siteURL : string) (err : SendError) :
  In (SendInviteEmailsCall team senderName senderUserId invites siteURL)
     (trace (localInviteUsersToTeam env r)) ->
  SendInviteEmails env team senderName senderUserId invites siteURL = Some err ->
  isNoRateLimiterError err = true ->
  Err (localInviteUsersToTeam env r) =
    Some (NewAppError "SendInviteEmails" "app.email.no_rate_limiter.app_error"
            [] ("team_id=" +:+ Team_Id team) StatusInternalServerError).
Proof.
  intros Hin Hsend Hkind.
  assert (Hd : In (SendInviteEmailsCall team senderName senderUserId invites
                     siteURL) (dispatches (localInviteUsersToTeam env r))).
  { apply filter_In. by split. }
  destruct (reaches_or_no_dispatch r) as [[team' Hreach]|Hnone];
    [|by rewrite Hnone in Hd].
  destruct (dispatch_failure_reported r team' _ Hreach Hd)
    as (emails & Hcall & Herr).
  injection Hcall as -> -> -> -> ->.
  rewrite (Herr err Hsend). unfold sendErrorToAppError. by rewrite Hkind.
Qed.

End DispatchErrors.

(** ** Facts about the string functions *)

Lemma append_nil (t : string) : "" +:+ t = t.
Proof. reflexivity. Qed.

Lemma append_cons (c : ascii) (s t : string) :
  String c s +:+ t = String c (s +:+ t).
Proof. reflexivity. Qed.

Lemma length_append (s t : string) :
  String.length (s +:+ t) = String.length s + String.length t.
Proof.
  induction s as [|c s IH]; [done|]. rewrite append_cons. simpl. by f_equal.
Qed.

Lemma substring_all (s : string) : substring 0 (String.length s) s = s.
Proof. induction s as [|c s IH]; simpl; [done | by f_equal]. Qed.

Lemma substring_skip (p s : string) (m : nat) :
  substring (String.length p) m (p +:+ s) = substring 0 m s.
Proof. induction p as [|c p IH]; [done|]. by rewrite append_cons. Qed.

Lemma substring_split (s : string) (n : nat) :
  n <= String.length s ->
  s = substring 0 n s +:+ substring n (String.length s - n) s.
Proof.
  revert n. induction s as [|c s IH]; intros [|n] Hn; cbn in *; try done.
  - by rewrite append_nil, substring_all.
  - rewrite append_cons. f_equal. apply IH. lia.
Qed.

(** [HasSuffix s suffix] holds exactly when [s] ends with [suffix]. *)
Lemma HasSuffix_spec (s suffix : string) :
  HasSuffix s suffix = true <-> exists p, s = p +:+ suffix.
Proof.
  unfold HasSuffix. rewrite andb_true_iff, Nat.leb_le, String.eqb_eq. split.
  - intros [Hlen Hsub].
    remember (String.length s - String.length suffix) as n eqn:Hn.
    exists (substring 0 n s).
    assert (Hs : s = substring 0 n s +:+ substring n (String.length s - n) s)
      by (apply substring_split; lia).
    replace (String.length s - n) with (String.length suffix) in Hs by lia.
    by rewrite Hsub in Hs.
  - intros [p ->]. rewrite length_append. split; [lia|].
    replace (String.length p + String.length suffix - String.length suffix)
      with (String.length p) by lia.
    by rewrite substring_skip, substring_all.
Qed.

(** ** The claims about the domain matcher *)

Section MatcherClaims.
Context {U : UnicodePaths}.

Lemma matchedAny_spec (email : string) (domains : list string) :
  matchedAny email domains = true <->
  exists d, In d domains /\ exists p, email = p +:+ "@" +:+ d.
Proof.
  induction domains as [|d rest IH]; cbn [matchedAny].
  - split; [done | by intros (? & [] & _)].
  - destruct (HasSuffix email ("@" +:+ d)) eqn:Hd.
    + split; [|done]. intros _. exists d. split; [by left|].
      by apply HasSuffix_spec.
    + rewrite IH. split.
      * intros (d' & Hin & Hp). exists d'. split; [by right | done].
      * intros (d' & [->|Hin] & Hp); [|by exists d'].
        apply HasSuffix_spec in Hp. congruence.
Qed.

(** C3.  [isEmailAddressAllowed] accepts an address exactly when, for every
    rule that normalises to a non-empty list of suffixes, the address ends
    with ["@"] followed by one of them; in particular it accepts every
    address when every rule normalises to the empty list. *)
Theorem isEmailAddressAllowed_and_of_ors (email : string) (rules : list string) :
  (isEmailAddressAllowed email rules = true <->
   forall rule, In rule rules -> normalizeDomains rule <> [] ->
     exists d, In d (normalizeDomains rule) /\
               exists p, email = p +:+ "@" +:+ d) /\
  ((forall rule, In rule rules -> normalizeDomains rule = []) ->
   isEmailAddressAllowed email rules = true).
Proof.
  assert (Hiff : isEmailAddressAllowed email rules = true <->
    forall rule, In rule rules -> normalizeDomains rule <> [] ->
      exists d, In d (normalizeDomains rule) /\
                exists p, email = p +:+ "@" +:+ d).
  { induction rules as [|rule rest IH]; cbn [isEmailAddressAllowed].
    - split; [by intros _ ? [] | done].
    - cbv zeta. destruct (normalizeDomains rule) as [|d ds] eqn:Hnorm.
      + cbn. rewrite IH. split.
        * intros Hrest rule' [<-|Hin] Hne; [congruence | by apply Hrest].
        * intros Hall rule' Hin. apply Hall. by right.
      + cbn [length Nat.leb].
        destruct (matchedAny email (d :: ds)) eqn:Hm; cbn [negb].
        * rewrite IH. split.
          -- intros Hrest rule' [<-|Hin] Hne; [|by apply Hrest].
             rewrite Hnorm. by apply matchedAny_spec.
          -- intros Hall rule' Hin. apply Hall. by right.
        * split; [done|]. intros Hall.
          assert (Hex : matchedAny email (d :: ds) = true).
          { apply matchedAny_spec. rewrite <- Hnorm. apply Hall; [by left|].
            by rewrite Hnorm. }
          congruence. }
  split; [exact Hiff|].
  intros Hempty. apply Hiff. intros rule Hin Hne. destruct Hne. by apply Hempty.
Qed.

(** C9.  The matcher lower-cases the rules, not the address: with the rule
    ["a.com"] it rejects ["user@A.com"] and accepts the lower-cased
    ["user@a.com"], while the upper-case rule ["A.COM"] accepts the
    lower-case address.  The handler lower-cases every address before it
    calls the matcher. *)
Theorem matcher_does_not_lowercase_address :
  normalizeDomains "a.com" = ["a.com"] /\
  isEmailAddressAllowed "user@A.com" ["a.com"] = false /\
  ToLower "user@A.com" = "user@a.com" /\
  isEmailAddressAllowed (ToLower "user@A.com") ["a.com"] = true /\
  isEmailAddressAllowed "user@a.com" ["A.COM"] = true.
Proof. repeat split; reflexivity. Qed.

End MatcherClaims.

(** ** Facts about [normalizeDomains] on ASCII rules *)

#[local] Arguments asciiSpace : simpl never.
#[local] Arguments isASCIIByte : simpl never.
#[local] Arguments isSeparator : simpl never.
#[local] Arguments lowerByte : simpl never.
#[local] Arguments normByte : simpl never.

Ltac by_bytes c :=
  destruct c as [[] [] [] [] [] [] [] []]; vm_compute; try tauto; try congruence.

Lemma normByte_ascii (c : ascii) :
  isASCIIByte c = true -> isASCIIByte (normByte c) = true.
Proof. by_bytes c. Qed.

Lemma normByte_separator (c : ascii) :
  isSeparator c = true -> asciiSpace (normByte c) = true.
Proof. by_bytes c. Qed.

Lemma normByte_token (c : ascii) :
  isASCIIByte c && negb (isSeparator c) = true ->
  asciiSpace (normByte c) = false /\ normByte c = lowerByte c.
Proof. by_bytes c. Qed.

Lemma lowerByte_token (c : ascii) :
  isASCIIByte c && negb (isSeparator c) = true ->
  isASCIIByte (lowerByte c) && negb (isSeparator (lowerByte c)) = true.
Proof. by_bytes c. Qed.

Lemma lowerByte_idem (c : ascii) : lowerByte (lowerByte c) = lowerByte c.
Proof. by_bytes c. Qed.

Lemma separator_ascii (c : ascii) : isSeparator c = true -> isASCIIByte c = true.
Proof. by_bytes c. Qed.

Lemma map_bytes_app (f : ascii -> ascii) (s t : string) :
  map_bytes f (s +:+ t) = map_bytes f s +:+ map_bytes f t.
Proof.
  induction s as [|c s IH]; [done|].
  rewrite append_cons. cbn [map_bytes]. by rewrite append_cons, IH.
Qed.

Lemma map_bytes_map_bytes (f g : ascii -> ascii) (s : string) :
  map_bytes f (map_bytes g s) = map_bytes (fun c => f (g c)) s.
Proof. induction s as [|c s IH]; cbn; [done | by rewrite IH]. Qed.

Lemma map_bytes_ext (f g : ascii -> ascii) (p : ascii -> bool) (s : string) :
  (forall c, p c = true -> f c = g c) ->
  all_bytes p s = true -> map_bytes f s = map_bytes g s.
Proof.
  intros Hfg. induction s as [|c s IH]; cbn; [done|].
  intros [Hc Hs]%andb_true_iff. by rewrite Hfg, IH.
Qed.

Lemma all_bytes_app (p : ascii -> bool) (s t : string) :
  all_bytes p (s +:+ t) = all_bytes p s && all_bytes p t.
Proof.
  induction s as [|c s IH]; [done|].
  rewrite append_cons. cbn [all_bytes]. by rewrite IH, andb_assoc.
Qed.

Lemma all_bytes_impl (p q : ascii -> bool) (s : string) :
  (forall c, p c = true -> q c = true) ->
  all_bytes p s = true -> all_bytes q s = true.
Proof.
  intros Hpq. induction s as [|c s IH]; cbn; [done|].
  intros [Hc Hs]%andb_true_iff. by rewrite Hpq, IH.
Qed.

Lemma all_bytes_map (p q : ascii -> bool) (f : ascii -> ascii) (s : string) :
  (forall c, p c = true -> q (f c) = true) ->
  all_bytes p s = true -> all_bytes q (map_bytes f s) = true.
Proof.
  intros Hpq. induction s as [|c s IH]; cbn; [done|].
  intros [Hc Hs]%andb_true_iff. by rewrite Hpq, IH.
Qed.

Lemma Replace_byte (a b : ascii) (s : string) :
  Replace s (String a "") (String b "") (-1) = map_bytes (replaceByte a b) s.
Proof.
  unfold Replace. cbn [Z.ltb Z.compare].
  induction s as [|c s IH]; [done|].
  cbn [replaceFrom map_bytes andb String.prefix String.length Nat.sub option_map].
  unfold replaceByte at 1. destruct (ascii_dec a c) as [->|Hne].
  - rewrite Ascii.eqb_refl.
    replace (String.prefix "" s) with true by (by destruct s).
    by rewrite append_cons, append_nil, IH.
  - apply Ascii.eqb_neq in Hne. by rewrite Hne, IH.
Qed.

Lemma trimLeftSpace_all (p : ascii -> bool) (s : string) :
  all_bytes p s = true -> all_bytes p (trimLeftSpace s) = true.
Proof.
  induction s as [|c s IH]; cbn; [done|].
  intros [Hc Hs]%andb_true_iff. destruct (asciiSpace c); [by apply IH|].
  cbn. by rewrite Hc, Hs.
Qed.

Lemma trimRightSpace_all (p : ascii -> bool) (s : string) :
  all_bytes p s = true -> all_bytes p (trimRightSpace s) = true.
Proof.
  induction s as [|c s IH]; cbn; [done|].
  intros [Hc Hs]%andb_true_iff. specialize (IH Hs).
  destruct (trimRightSpace s) as [|c' t].
  - destruct (asciiSpace c); cbn; [done | by rewrite Hc].
  - cbn [all_bytes] in *. by rewrite Hc, IH.
Qed.

Lemma consField_nil (fs : list string) : consField "" fs = fs.
Proof. reflexivity. Qed.

Lemma fieldsASCII_trimLeft (s : string) :
  fieldsASCII (trimLeftSpace s) = fieldsASCII s.
Proof.
  induction s as [|c s IH]; cbn [trimLeftSpace]; [done|].
  destruct (asciiSpace c) eqn:Hc; [|done].
  rewrite IH. unfold fieldsASCII. cbn [fieldsFrom].
  destruct (fieldsFrom s) as [w fs]. by rewrite Hc.
Qed.

Lemma fieldsFrom_trimRight (s : string) :
  fieldsFrom (trimRightSpace s) = fieldsFrom s.
Proof.
  induction s as [|c s IH]; cbn [trimRightSpace]; [done|].
  destruct (trimRightSpace s) as [|c' t].
  - cbn [fieldsFrom] in *. rewrite <- IH.
    destruct (asciiSpace c) eqn:Hc; cbn [fieldsFrom]; by rewrite ?Hc.
  - cbn [fieldsFrom] in *. by rewrite IH.
Qed.

Lemma fieldsFrom_spaces (sp s : string) :
  all_bytes asciiSpace sp = true -> sp <> "" ->
  fieldsFrom (sp +:+ s) = ("", fieldsASCII s).
Proof.
  induction sp as [|c sp IH]; [done|]. cbn [all_bytes].
  intros [Hc Hsp]%andb_true_iff _. rewrite append_cons. cbn [fieldsFrom].
  rewrite Hc. destruct sp as [|c' sp'].
  - rewrite append_nil. unfold fieldsASCII. by destruct (fieldsFrom s).
  - rewrite IH by done. done.
Qed.

Lemma fieldsASCII_spaces (sp s : string) :
  all_bytes asciiSpace sp = true -> fieldsASCII (sp +:+ s) = fieldsASCII s.
Proof.
  intros Hsp. destruct sp as [|c sp]; [done|].
  unfold fieldsASCII at 1. by rewrite fieldsFrom_spaces.
Qed.

Lemma fieldsFrom_word (w s : string) :
  all_bytes (fun c => negb (asciiSpace c)) w = true ->
  fieldsFrom (w +:+ s) = (w +:+ fst (fieldsFrom s), snd (fieldsFrom s)).
Proof.
  induction w as [|c w IH]; cbn [all_bytes].
  - intros _. rewrite !append_nil. by destruct (fieldsFrom s).
  - intros [Hc Hw]%andb_true_iff. rewrite !append_cons. cbn [fieldsFrom].
    rewrite (IH Hw). apply negb_true_iff in Hc. by rewrite Hc.
Qed.

Lemma fieldsFrom_all_spaces (sp : string) :
  all_bytes asciiSpace sp = true -> fieldsFrom sp = ("", []).
Proof.
  induction sp as [|c sp IH]; cbn [all_bytes fieldsFrom]; [done|].
  intros [Hc Hsp]%andb_true_iff. by rewrite (IH Hsp), Hc.
Qed.

Lemma append_nil_r (s : string) : s +:+ "" = s.
Proof. induction s as [|c s IH]; [done|]. by rewrite append_cons, IH. Qed.

Lemma fieldsASCII_word_then (w s : string) (toks : list string) :
  all_bytes (fun c => negb (asciiSpace c)) w = true -> w <> "" ->
  fieldsFrom s = ("", toks) ->
  fieldsASCII (w +:+ s) = w :: toks.
Proof.
  intros Hw Hne Hs. unfold fieldsASCII. rewrite (fieldsFrom_word _ _ Hw), Hs.
  cbn [fst snd]. rewrite append_nil_r. by destruct w.
Qed.

Lemma domainToken_parts (d : string) :
  isDomainToken d = true ->
  d <> "" /\ isASCII d = true /\
  map_bytes normByte d = map_bytes lowerByte d /\
  all_bytes (fun c => negb (asciiSpace c)) (map_bytes normByte d) = true /\
  isDomainToken (map_bytes lowerByte d) = true.
Proof.
  unfold isDomainToken. intros [Hne Hall]%andb_true_iff.
  apply negb_true_iff, String.eqb_neq in Hne. repeat split; [done|..].
  - revert Hall. apply all_bytes_impl. by intros c [? _]%andb_true_iff.
  - revert Hall. apply map_bytes_ext. intros c Hc. by apply normByte_token.
  - revert Hall. apply all_bytes_map. intros c Hc.
    apply negb_true_iff. by apply normByte_token.
  - apply andb_true_iff. split.
    + apply negb_true_iff, String.eqb_neq. by destruct d.
    + revert Hall. apply all_bytes_map. apply lowerByte_token.
Qed.

Lemma separators_parts (sp : string) :
  isSeparators sp = true ->
  isASCII sp = true /\ all_bytes asciiSpace (map_bytes normByte sp) = true.
Proof.
  unfold isSeparators. intros Hall. split.
  - revert Hall. apply all_bytes_impl, separator_ascii.
  - revert Hall. apply all_bytes_map, normByte_separator.
Qed.

Lemma map_bytes_nonempty (f : ascii -> ascii) (s : string) :
  s <> "" -> map_bytes f s <> "".
Proof. by destruct s. Qed.

Lemma mixedRule_ascii (items : list (string * string)) (trail : string) :
  forallb wellFormedItem items = true -> isSeparators trail = true ->
  isASCII (mixedRule items trail) = true.
Proof.
  intros Hitems Htrail. induction items as [|[sep d] rest IH]; cbn [mixedRule].
  - by apply separators_parts.
  - cbn [forallb] in Hitems.
    apply andb_true_iff in Hitems as [[Hsep Hd]%andb_true_iff Hrest].
    unfold isASCII. rewrite !all_bytes_app. cbn [fst snd] in *.
    apply separators_parts in Hsep as [Hsep _].
    apply domainToken_parts in Hd as (_ & Hd & _).
    unfold isASCII in *. by rewrite Hsep, Hd, IH.
Qed.

(** The fields after the first domain: every run of separators is
    non-empty there. *)
Lemma fieldsFrom_mixed_rest (rest : list (string * string)) (trail : string) :
  forallb wellFormedItem rest = true ->
  forallb (fun it => negb (String.eqb (fst it) "")) rest = true ->
  isSeparators trail = true ->
  fieldsFrom (map_bytes normByte (mixedRule rest trail)) =
    ("", List.map (fun it => map_bytes lowerByte (snd it)) rest).
Proof.
  intros Hitems Hsep Htrail.
  induction rest as [|[sep d] rest IH]; cbn [mixedRule List.map].
  - apply fieldsFrom_all_spaces. by apply separators_parts.
  - cbn [forallb fst snd] in *.
    apply andb_true_iff in Hitems as [[Hs Hd]%andb_true_iff Hrest].
    apply andb_true_iff in Hsep as [Hne Hsep]. cbn [fst snd] in *.
    apply negb_true_iff, String.eqb_neq in Hne.
    apply separators_parts in Hs as [_ Hs].
    apply domainToken_parts in Hd as (Hdne & _ & Hlow & Hword & _).
    rewrite !map_bytes_app.
    rewrite fieldsFrom_spaces by (by try apply map_bytes_nonempty).
    rewrite (fieldsASCII_word_then _ _ _ Hword
               (map_bytes_nonempty _ _ Hdne) (IH Hrest Hsep)).
    by rewrite Hlow.
Qed.

Lemma fieldsASCII_mixed (items : list (string * string)) (trail : string) :
  forallb wellFormedItem items = true ->
  separated items = true ->
  isSeparators trail = true ->
  fieldsASCII (map_bytes normByte (mixedRule items trail)) =
    List.map (fun it => map_bytes lowerByte (snd it)) items.
Proof.
  intros Hitems Hsep Htrail. destruct items as [|[sep d] rest].
  - cbn [mixedRule List.map]. unfold fieldsASCII.
    by rewrite fieldsFrom_all_spaces by (by apply separators_parts).
  - cbn [mixedRule List.map forallb fst snd] in *. unfold separated in Hsep.
    cbn [tail] in Hsep.
    apply andb_true_iff in Hitems as [[Hs Hd]%andb_true_iff Hrest].
    cbn [fst snd] in *.
    apply separators_parts in Hs as [_ Hs].
    apply domainToken_parts in Hd as (Hdne & _ & Hlow & Hword & _).
    rewrite !map_bytes_app, (fieldsASCII_spaces _ _ Hs).
    rewrite (fieldsASCII_word_then _ _ _ Hword (map_bytes_nonempty _ _ Hdne)
               (fieldsFrom_mixed_rest rest trail Hrest Hsep Htrail)).
    by rewrite Hlow.
Qed.

(** The canonical spelling: the domains joined with one space. *)
Lemma Join_cons2 (x y : string) (rest : list string) (sep : string) :
  Join (x :: y :: rest) sep = x +:+ sep +:+ Join (y :: rest) sep.
Proof. reflexivity. Qed.

Lemma Join_space_ascii (ds : list string) :
  forallb isDomainToken ds = true -> isASCII (Join ds " ") = true.
Proof.
  induction ds as [|d ds IH]; [done|]. cbn [forallb].
  intros [Hd Hrest]%andb_true_iff.
  apply domainToken_parts in Hd as (_ & Hd & _).
  destruct ds as [|d' rest]; [done|].
  rewrite Join_cons2. unfold isASCII in *.
  by rewrite !all_bytes_app, (IH Hrest), Hd.
Qed.

Lemma fieldsASCII_Join_space (ds : list string) :
  forallb isDomainToken ds = true ->
  fieldsASCII (map_bytes normByte (Join ds " ")) =
    List.map (map_bytes lowerByte) ds.
Proof.
  induction ds as [|d ds IH]; [done|]. cbn [forallb List.map].
  intros [Hd Hrest]%andb_true_iff.
  apply domainToken_parts in Hd as (Hdne & _ & Hlow & Hword & _).
  destruct ds as [|d' rest].
  - cbn [Join List.map]. rewrite <- (append_nil_r (map_bytes normByte d)).
    rewrite (fieldsASCII_word_then _ "" [] Hword (map_bytes_nonempty _ _ Hdne))
      by done.
    by rewrite Hlow.
  - rewrite Join_cons2, !map_bytes_app.
    rewrite (fieldsASCII_word_then _ _ (List.map (map_bytes lowerByte) (d' :: rest))
               Hword (map_bytes_nonempty _ _ Hdne)).
    + by rewrite Hlow.
    + rewrite fieldsFrom_spaces by done. by rewrite (IH Hrest).
Qed.

Lemma lowerByte_idem_string (s : string) :
  map_bytes lowerByte (map_bytes lowerByte s) = map_bytes lowerByte s.
Proof.
  rewrite map_bytes_map_bytes. induction s as [|c s IH]; cbn [map_bytes]; [done|].
  by rewrite lowerByte_idem, IH.
Qed.

Section NormalizeClaims.
Context {U : UnicodePaths}.

Lemma ToLower_ascii (s : string) :
  isASCII s = true -> ToLower s = map_bytes lowerByte s.
Proof. intros Hs. unfold ToLower. by rewrite Hs. Qed.

(** On an ASCII rule the pipeline of [normalizeDomains] maps every byte
    with [normByte] and takes the fields. *)
Lemma normalizeDomains_ascii (s : string) :
  isASCII s = true ->
  normalizeDomains s = fieldsASCII (map_bytes normByte s).
Proof.
  intros Hs. unfold normalizeDomains.
  change "@"%string with (String "@" ""). change ","%string with (String "," "").
  change " "%string with (String " " "").
  rewrite !Replace_byte, map_bytes_map_bytes.
  assert (H1 : isASCII (map_bytes
    (fun c => replaceByte "," " " (replaceByte "@" " " c)) s) = true).
  { revert Hs. apply all_bytes_map. intros c. by_bytes c. }
  rewrite (ToLower_ascii _ H1), map_bytes_map_bytes.
  change (fun c => lowerByte (replaceByte "," " " (replaceByte "@" " " c)))
    with normByte.
  assert (H2 : isASCII (map_bytes normByte s) = true).
  { revert Hs. apply all_bytes_map, normByte_ascii. }
  assert (H3 : isASCII (trimRightSpace (trimLeftSpace (map_bytes normByte s)))
                = true) by apply trimRightSpace_all, trimLeftSpace_all, H2.
  unfold TrimSpace. rewrite H2. unfold Fields. rewrite H3.
  unfold fieldsASCII at 1. rewrite fieldsFrom_trimRight.
  apply fieldsASCII_trimLeft.
Qed.


Lemma wellFormed_tokens (items : list (string * string)) :
  forallb wellFormedItem items = true ->
  forallb isDomainToken (List.map snd items) = true.
Proof.
  induction items as [|[sep d] rest IH]; [done|]. cbn [forallb List.map snd].
  intros [[_ Hd]%andb_true_iff Hrest]%andb_true_iff. cbn [snd] in Hd.
  by rewrite Hd, IH.
Qed.

Lemma ToLower_tokens (ds : list string) :
  forallb isDomainToken ds = true ->
  List.map ToLower ds = List.map (map_bytes lowerByte) ds /\
  forallb isDomainToken (List.map ToLower ds) = true.
Proof.
  induction ds as [|d ds IH]; [done|]. cbn [forallb List.map].
  intros [Hd Hrest]%andb_true_iff. destruct (IH Hrest) as [-> IH2].
  apply domainToken_parts in Hd as (_ & Hascii & _ & _ & Hlow).
  rewrite (ToLower_ascii d Hascii). by rewrite Hlow, IH2.
Qed.

(** C4.  Take any domains (non-empty ASCII strings without separator) and
    write them with any mix of separators: white space, commas and at
    signs before, between and after them, the runs between two domains
    non-empty.  [normalizeDomains] yields the lower-cased domains, in
    order, and it yields the same list on the canonical spelling, the
    lower-cased domains with one space between them. *)
Theorem normalizeDomains_separator_insensitive
    (items : list (string * string)) (trail : string) :
  forallb wellFormedItem items = true ->
  separated items = true ->
  isSeparators trail = true ->
  normalizeDomains (mixedRule items trail) =
    normalizeDomains (canonicalRule (List.map snd items)) /\
  normalizeDomains (mixedRule items trail) =
    List.map ToLower (List.map snd items).
Proof.
  intros Hitems Hsep Htrail.
  pose proof (wellFormed_tokens items Hitems) as Htok.
  destruct (ToLower_tokens _ Htok) as [Hlow Hlowtok].
  assert (Hmixed : normalizeDomains (mixedRule items trail) =
                   List.map ToLower (List.map snd items)).
  { rewrite (normalizeDomains_ascii _ (mixedRule_ascii _ _ Hitems Htrail)).
    rewrite (fieldsASCII_mixed _ _ Hitems Hsep Htrail), Hlow.
    by rewrite List.map_map. }
  split; [|exact Hmixed]. rewrite Hmixed. unfold canonicalRule.
  rewrite (normalizeDomains_ascii _ (Join_space_ascii _ Hlowtok)).
  rewrite (fieldsASCII_Join_space _ Hlowtok), Hlow.
  generalize (List.map snd items). intros ds.
  rewrite List.map_map. apply List.map_ext. intros d.
  by rewrite lowerByte_idem_string.
Qed.

End NormalizeClaims.

(** ** The claims about the resolver *)

Lemma collectInOrder_spec (orderMap : gmap string SidebarCategoryWithChannels)
    (order : list string) (res : list (option SidebarCategoryWithChannels)) :
  collectInOrder orderMap order res = res ++ List.map (fun id => orderMap !! id) order.
Proof.
  revert res. induction order as [|id rest IH]; intros res; cbn.
  - by rewrite app_nil_r.
  - by rewrite IH, <- app_assoc.
Qed.

(** A key that no category carries keeps the value the map had. *)
Lemma buildOrderMap_absent (categories : list SidebarCategoryWithChannels)
    (orderMap : gmap string SidebarCategoryWithChannels) (id : string) :
  (forall c, In c categories -> Category_Id c <> id) ->
  buildOrderMap categories orderMap !! id = orderMap !! id.
Proof.
  revert orderMap. induction categories as [|c rest IH]; intros m Hno; [done|].
  cbn [buildOrderMap]. rewrite IH by (intros c' Hc'; apply Hno; by right).
  apply lookup_insert_ne. apply Hno. by left.
Qed.

(** With distinct ids, every category is found under its id. *)
Lemma buildOrderMap_present (categories : list SidebarCategoryWithChannels)
    (orderMap : gmap string SidebarCategoryWithChannels)
    (c : SidebarCategoryWithChannels) :
  List.NoDup (List.map Category_Id categories) ->
  In c categories ->
  buildOrderMap categories orderMap !! Category_Id c = Some c.
Proof.
  revert orderMap. induction categories as [|c' rest IH]; intros m Hnd Hin.
  - destruct Hin.
  - cbn [buildOrderMap]. cbn [List.map] in Hnd.
    apply List.NoDup_cons_iff in Hnd as [Hfresh Hnd].
    destruct Hin as [->|Hin]; [|by apply IH].
    rewrite buildOrderMap_absent; [apply lookup_insert_eq|].
    intros c' Hc' Heq. apply Hfresh. rewrite <- Heq. by apply List.in_map.
Qed.

Lemma buildOrderMap_lookup (categories : list SidebarCategoryWithChannels)
    (id : string) :
  List.NoDup (List.map Category_Id categories) ->
  (exists c, In c categories /\ Category_Id c = id /\
             buildOrderMap categories ∅ !! id = Some c) \/
  ((forall c, In c categories -> Category_Id c <> id) /\
   buildOrderMap categories ∅ !! id = None).
Proof.
  intros Hnd.
  destruct (List.in_dec string_dec id (List.map Category_Id categories))
    as [Hin|Hout].
  - left. apply List.in_map_iff in Hin as (c & <- & Hc). exists c.
    repeat split; [done|]. by apply buildOrderMap_present.
  - right. assert (Hno : forall c, In c categories -> Category_Id c <> id).
    { intros c Hc <-. apply Hout. by apply List.in_map. }
    split; [done|]. by rewrite buildOrderMap_absent.
Qed.

Lemma buildOrderMap_permutation
    (cats cats' : list SidebarCategoryWithChannels) (id : string) :
  List.NoDup (List.map Category_Id cats) ->
  Permutation cats cats' ->
  buildOrderMap cats' ∅ !! id = buildOrderMap cats ∅ !! id.
Proof.
  intros Hnd Hperm.
  assert (Hnd' : List.NoDup (List.map Category_Id cats')).
  { eapply Permutation_NoDup; [|exact Hnd]. by apply Permutation_map. }
  destruct (buildOrderMap_lookup cats id Hnd) as [(c & Hc & Hid & ->)|[Hno ->]].
  - rewrite <- Hid. apply buildOrderMap_present; [done|].
    by apply (Permutation_in _ Hperm).
  - apply buildOrderMap_absent. intros c Hc. apply Hno.
    by apply (Permutation_in _ (Permutation_sym Hperm)).
Qed.

(** C7.  When the context is there, the session may act for the member's
    user and the store answers with [(Categories, Order)], the categories
    having distinct ids: the resolver returns a sequence as long as
    [Order]; its i-th entry is the category whose id is the i-th entry of
    [Order], or nil when no category has that id; and the same sequence
    comes out when the store hands over [Categories] in another order. *)
Theorem SidebarCategories_follows_order
    (env : ResolverEnv) (tm : TeamMember) (categories : OrderedSidebarCategories) :
  getCtx env = None ->
  SessionHasPermissionToUser env (UserId tm) = true ->
  GetSidebarCategories env (UserId tm) (TeamId tm) = inl categories ->
  List.NoDup (List.map Category_Id (Categories categories)) ->
  exists res,
    SidebarCategories env tm = inl res /\
    length res = length (Order categories) /\
    (forall i id, Order categories !! i = Some id ->
       (forall c, In c (Categories categories) -> Category_Id c = id ->
          res !! i = Some (Some c)) /\
       ((forall c, In c (Categories categories) -> Category_Id c <> id) ->
          res !! i = Some None)) /\
    (forall env' categories',
       getCtx env' = None ->
       SessionHasPermissionToUser env' (UserId tm) = true ->
       GetSidebarCategories env' (UserId tm) (TeamId tm) = inl categories' ->
       Permutation (Categories categories) (Categories categories') ->
       Order categories' = Order categories ->
       SidebarCategories env' tm = inl res).
Proof.
  intros Hctx Hperm Hstore Hnd.
  exists (List.map (fun id => buildOrderMap (Categories categories) ∅ !! id)
            (Order categories)).
  assert (Hrun : forall e cs,
    getCtx e = None -> SessionHasPermissionToUser e (UserId tm) = true ->
    GetSidebarCategories e (UserId tm) (TeamId tm) = inl cs ->
    SidebarCategories e tm =
      inl (List.map (fun id => buildOrderMap (Categories cs) ∅ !! id) (Order cs))).
  { intros e cs H1 H2 H3. unfold SidebarCategories. rewrite H1, H2, H3.
    cbn [negb]. by rewrite collectInOrder_spec. }
  split; [by apply Hrun|]. split; [by rewrite length_map|]. split.
  - intros i id Hi. split.
    + intros c Hc Hid. rewrite list_lookup_fmap, Hi. cbn. f_equal.
      rewrite <- Hid. by apply buildOrderMap_present.
    + intros Hno. rewrite list_lookup_fmap, Hi. cbn. f_equal.
      by rewrite buildOrderMap_absent.
  - intros env' categories' Hctx' Hperm' Hstore' Hp Horder.
    rewrite (Hrun env' categories' Hctx' Hperm' Hstore'), Horder. f_equal.
    apply List.map_ext. intros id. by apply buildOrderMap_permutation.
Qed.

(** ** The claim about the permalink preview *)

(** C10.  [NewPreviewPost] returns nil for a nil post, whatever the channel
    (nil included); for a post and a channel it returns the preview built
    from [post.Id], the post itself, [channel.DisplayName] and
    [channel.Type]; for a post and a nil channel it dereferences the nil
    pointer. *)
Theorem NewPreviewPost_cases
    (Post Channel ChannelType : Type) (Post_Id : Post -> string)
    (Channel_DisplayName : Channel -> string)
    (Channel_Type : Channel -> ChannelType) :
  (forall channel,
     NewPreviewPost Post Channel ChannelType Post_Id Channel_DisplayName
       Channel_Type None channel = Returns None) /\
  (forall p ch,
     NewPreviewPost Post Channel ChannelType Post_Id Channel_DisplayName
       Channel_Type (Some p) (Some ch) =
     Returns (Some {| PostID := Post_Id p;
                      PreviewPost_Post := Some p;
                      ChannelDisplayName := Channel_DisplayName ch;
                      PreviewPost_ChannelType := Channel_Type ch |})) /\
  (forall p,
     NewPreviewPost Post Channel ChannelType Post_Id Channel_DisplayName
       Channel_Type (Some p) None = Panics).
Proof. repeat split. Qed.

(** * Further properties of the code *)

(** ** The invitation handler: every request *)

Section HandlerShape.
Context {U : UnicodePaths}.
Variable env : Env.

Lemma handler_reached_shape (r : Request) (team : Team) :
  reachesMode env r team -> ranAudited (localInviteUsersToTeam env r).
Proof.
  intros Hreach. unfold localInviteUsersToTeam, ranAudited.
  rewrite (handlerBody_reaches env r team Hreach). unfold bind.
  exists (Params_TeamId env).
  destruct (negb (String.eqb (Query_graceful r) "")).
  - rewrite gracefulBranch_spec. cbv zeta.
    destruct (accepted _ _) as [|g good].
    + destruct (jsonMarshalError env _) as [jsonErr|]; cbn.
      * eexists [], [], _. split; [reflexivity|]. split; [by left|].
        right. eexists. done.
      * eexists [], [_], _. split; [reflexivity|]. split; [by left|].
        left. repeat split. right. by eexists.
    + destruct (dispatchResult env team _) as [err|]; cbn.
      * eexists [_], [], _. split; [reflexivity|].
        split; [right; by repeat eexists|]. right. eexists. done.
      * destruct (jsonMarshalError env _) as [jsonErr|]; cbn.
        -- eexists [_], [], _. split; [reflexivity|].
           split; [right; by repeat eexists|]. right. eexists. done.
        -- eexists [_], [_], _. split; [reflexivity|].
           split; [right; by repeat eexists|].
           left. repeat split. right. by eexists.
  - destruct (rejected (domainsOf env team) (List.map ToLower (Body r)))
      as [|b bad] eqn:Hbad.
    + rewrite (strictBranch_sends env team _ _ Hbad).
      destruct (dispatchResult env team _) as [err|]; cbn.
      * eexists [_], [], _. split; [reflexivity|].
        split; [right; by repeat eexists|]. right. eexists. done.
      * eexists [_], [_], _. split; [reflexivity|].
        split; [right; by repeat eexists|]. left. repeat split. by left.
    + rewrite (strictBranch_rejects env team) by (by rewrite Hbad). cbn.
      eexists [], [], _. split; [reflexivity|]. split; [by left|].
      right. eexists. done.
Qed.

(** Every run of the handler has one of the two shapes. *)
Lemma handler_shape (r : Request) :
  stoppedEarly (localInviteUsersToTeam env r) \/
  ranAudited (localInviteUsersToTeam env r).
Proof.
  destruct (RequireTeamId env) as [e|] eqn:Hreq.
  { left. exists e.
    unfold localInviteUsersToTeam, handlerBody, c_RequireTeamId, bind, getErr,
      when. cbn. rewrite Hreq. done. }
  destruct (EnableEmailInvitations env) eqn:Hen; cycle 1.
  { left. eexists.
    unfold localInviteUsersToTeam, handlerBody, c_RequireTeamId, bind, getErr,
      when. cbn. rewrite Hreq, Hen. done. }
  destruct (Body r) as [|a l] eqn:Hbody.
  { left. eexists.
    unfold localInviteUsersToTeam, handlerBody, c_RequireTeamId, bind, getErr,
      when. cbn. rewrite Hreq, Hen, Hbody. done. }
  destruct (valid_or_invalid env (Body r)) as [Hval|Hbad]; cycle 1.
  { left.
    destruct (first_invalid env _ Hbad) as (l1 & e & l2 & Hb & Hl1 & He).
    rewrite (handler_stops_at_invalid env r l1 e l2 Hreq Hen Hb Hl1 He).
    eexists. done. }
  right.
  destruct (Store_Team_Get env (Params_TeamId env)) as [team|e] eqn:Hteam.
  { apply (handler_reached_shape r team).
    repeat split; try done. by rewrite Hbody. }
  unfold localInviteUsersToTeam, handlerBody, c_RequireTeamId, bind, getErr,
    when. cbn. rewrite Hreq, Hen. cbn.
  rewrite (nonnil_length_eqb (Body r)) by (by rewrite Hbody). cbn.
  rewrite (lowerAndValidate_ok env _ _ Hval). cbn.
  unfold getTeam, bind. cbn. rewrite Hteam.
  destruct e; cbn; eexists _, [], [], _;
    (split; [reflexivity|]); (split; [by left|]); right; eexists; done.
Qed.

End HandlerShape.

Section HandlerInvariants.
Context {U : UnicodePaths}.
Variable env : Env.

(** X1.  An empty address list is refused with the invalid-parameter error
    for [user_email] before anything else happens: no audit record, no
    team lookup, no dispatch, no response. *)
Theorem empty_batch_is_invalid_param (r : Request) :
  RequireTeamId env = None ->
  EnableEmailInvitations env = true ->
  Body r = [] ->
  localInviteUsersToTeam env r =
    {| Err := Some (InvalidParamError env "user_email");
       auditRec := None;
       trace := [] |}.
Proof.
  intros Hreq Hen Hbody.
  unfold localInviteUsersToTeam, handlerBody, c_RequireTeamId, bind, getErr,
    when. cbn. by rewrite Hreq, Hen, Hbody.
Qed.

(** X2.  Once the team id is accepted, with email invitations switched
    off the handler answers 501 whatever the body and the mode, even for an
    empty or a malformed list, and touches no collaborator.  (A refused
    team id comes first: then the handler leaves with that error.) *)
Theorem invitations_disabled_is_not_implemented (r : Request) :
  RequireTeamId env = None ->
  EnableEmailInvitations env = false ->
  localInviteUsersToTeam env r =
    {| Err := Some (NewAppError "localInviteUsersToTeam"
                      "api.team.invite_members.disabled.app_error" [] ""
                      StatusNotImplemented);
       auditRec := None;
       trace := [] |}.
Proof.
  intros Hreq Hen.
  unfold localInviteUsersToTeam, handlerBody, c_RequireTeamId, bind, getErr,
    when. cbn. by rewrite Hreq, Hen.
Qed.

(** X3.  When the team cannot be fetched, a valid batch fails with 404 for
    a not-found error and with 500 for any other store error, the store's
    message as detail; the audit record, holding the team id, the count
    and the lower-cased addresses, is logged as failed, and neither the
    domain check's result nor the mail service is used. *)
Theorem team_lookup_failure (r : Request) (e : StoreError) :
  RequireTeamId env = None ->
  EnableEmailInvitations env = true ->
  Body r <> [] ->
  Forall (validLower env) (Body r) ->
  Store_Team_Get env (Params_TeamId env) = inr e ->
  let emails := List.map ToLower (Body r) in
  let rec :=
    {| auditEvent := "localInviteUsersToTeam"; auditStatus := Fail;
       auditMeta :=
         <["emails" := MetaStrings emails]>
           (<["count" := MetaInt (length emails)]>
              (<["team_id" := MetaString (Params_TeamId env)]> ∅)) |} in
  localInviteUsersToTeam env r =
    {| Err := Some
         match e with
         | ErrNotFound msg =>
             NewAppError "localInviteUsersToTeam" "app.team.get.find.app_error"
               [] msg StatusNotFound
         | ErrOther msg =>
             NewAppError "localInviteUsersToTeam"
               "app.team.get.finding.app_error" [] msg
               StatusInternalServerError
         end;
       auditRec := Some rec;
       trace := [TeamStoreGet (Params_TeamId env); LogAuditRec rec] |}.
Proof.
  intros Hreq Hen Hne Hval Hteam. cbv zeta.
  unfold localInviteUsersToTeam, handlerBody, c_RequireTeamId, bind, getErr,
    when. cbn. rewrite Hreq, Hen. cbn.
  rewrite (nonnil_length_eqb (Body r) Hne). cbn.
  rewrite (lowerAndValidate_ok env _ _ Hval). cbn.
  unfold getTeam, bind. cbn. rewrite Hteam. by destruct e.
Qed.

Lemma audit_in_ranAudited (st : State) (rec : AuditRecord) :
  ranAudited st -> In (LogAuditRec rec) (trace st) ->
  (auditStatus rec = Success <-> Err st = None).
Proof.
  intros (teamId & disp & resp & rec0 & Htrace & Hdisp & Hcase) Hin.
  assert (rec = rec0) as ->.
  { rewrite Htrace in Hin. destruct Hin as [Heq|Hin]; [discriminate Heq|].
    apply in_app_or in Hin as [Hin|Hin].
    { destruct Hdisp as [->|(? & ? & ? & ? & ? & ->)]; [destruct Hin|].
      destruct Hin as [Heq|[]]. discriminate Heq. }
    apply in_app_or in Hin as [Hin|[Heq|[]]]; [|congruence].
    destruct Hcase as [(_ & _ & [->|[? ->]])|(? & _ & _ & ->)];
      try destruct Hin as [Heq|[]]; try discriminate Heq. destruct Hin. }
  destruct Hcase as [(-> & -> & _)|(e & -> & -> & _)]; split; done.
Qed.

(** X4.  The audit record is logged as successful exactly when the handler
    leaves without error: for every request, whatever record ends up in
    the audit log says [Success] if and only if [c.Err] is nil. *)
Theorem audit_success_iff_no_error (r : Request) (rec : AuditRecord) :
  In (LogAuditRec rec) (trace (localInviteUsersToTeam env r)) ->
  (auditStatus rec = Success <-> Err (localInviteUsersToTeam env r) = None).
Proof.
  intros Hin. destruct (handler_shape env r) as [(e & _ & _ & Hnil)|Hran].
  - rewrite Hnil in Hin. destruct Hin.
  - by apply audit_in_ranAudited.
Qed.

(** X5.  A response is written exactly when no error is set, and then
    exactly one: for every request, [c.Err] is nil if and only if the
    handler wrote one response (the status OK or the outcome list), and
    when [c.Err] is set it wrote nothing. *)
Theorem response_iff_no_error (r : Request) :
  (Err (localInviteUsersToTeam env r) = None <->
   exists w, responses (localInviteUsersToTeam env r) = [w]) /\
  (Err (localInviteUsersToTeam env r) <> None ->
   responses (localInviteUsersToTeam env r) = []).
Proof.
  destruct (handler_shape env r) as [(e & He & _ & Hnil)|Hran].
  - unfold responses. rewrite He, Hnil. cbn. split; [|done].
    split; [done | by intros [w Hw]].
  - destruct Hran as (teamId & disp & resp & rec & Htrace & Hdisp & Hcase).
    assert (Hresp : responses (localInviteUsersToTeam env r) = resp).
    { unfold responses. rewrite Htrace. cbn [List.filter isResponse].
      rewrite !List.filter_app. cbn.
      replace (List.filter isResponse disp) with (@nil Effect)
        by (by destruct Hdisp as [->|(? & ? & ? & ? & ? & ->)]).
      rewrite app_nil_r. cbn [app].
      by destruct Hcase as [(_ & _ & [->|[? ->]])|(? & _ & _ & ->)]. }
    rewrite Hresp.
    destruct Hcase as [(HErr & _ & Hw)|(e & HErr & _ & ->)]; rewrite HErr.
    + split; [split; [intros _ | done] | done].
      destruct Hw as [->|[inv ->]]; by eexists.
    + split; [split; [done | by intros [w Hw]] | done].
Qed.

End HandlerInvariants.

Section HandlerDispatch.
Context {U : UnicodePaths}.
Variable env : Env.

Lemma rejected_nil_accepted_all (ad emails : list string) :
  rejected ad emails = [] -> accepted ad emails = emails.
Proof.
  unfold rejected, accepted. induction emails as [|e rest IH]; [done|].
  cbn [List.filter]. destruct (isEmailAddressAllowed e ad); cbn [negb].
  - intros Hrest. by rewrite IH.
  - discriminate.
Qed.

Lemma accepted_all_allowed (ad emails : list string) :
  Forall (fun e => isEmailAddressAllowed e ad = true) (accepted ad emails).
Proof.
  apply List.Forall_forall. intros e He.
  by apply List.filter_In in He as [_ He].
Qed.

Lemma accepted_all_valid (ad emails : list string) :
  Forall (validLower env) emails ->
  Forall (fun e => IsValidEmail env e = true)
    (accepted ad (List.map ToLower emails)).
Proof.
  intros Hval. apply List.Forall_forall. intros e He.
  apply List.filter_In in He as [He _].
  apply List.in_map_iff in He as (a & <- & Ha).
  by apply (proj1 (List.Forall_forall _ _) Hval).
Qed.

(** In either mode the one list that can reach the mail service is the
    list of the lower-cased addresses that pass the domain check. *)
Lemma dispatch_is_accepted (r : Request) (team : Team) (call : Effect) :
  reachesMode env r team ->
  In call (dispatches (localInviteUsersToTeam env r)) ->
  accepted (domainsOf env team) (List.map ToLower (Body r)) <> [] /\
  dispatches (localInviteUsersToTeam env r) =
    [dispatchCall env team
       (accepted (domainsOf env team) (List.map ToLower (Body r)))] /\
  (Query_graceful r = "" ->
   accepted (domainsOf env team) (List.map ToLower (Body r)) =
     List.map ToLower (Body r)).
Proof.
  intros Hreach. unfold localInviteUsersToTeam.
  rewrite (handlerBody_reaches env r team Hreach). unfold bind.
  destruct (String.eqb (Query_graceful r) "") eqn:Hq; cbn [negb].
  - apply String.eqb_eq in Hq.
    destruct (rejected (domainsOf env team) (List.map ToLower (Body r)))
      as [|b bad] eqn:Hbad.
    + rewrite (strictBranch_sends env team _ _ Hbad).
      rewrite (rejected_nil_accepted_all _ _ Hbad).
      destruct Hreach as (_ & _ & Hne & _).
      destruct (dispatchResult env team _); cbn; intros _;
        (split; [by destruct (Body r) | done]).
    + rewrite (strictBranch_rejects env team) by (by rewrite Hbad).
      cbn. intros [].
  - apply String.eqb_neq in Hq.
    rewrite gracefulBranch_spec. cbv zeta.
    destruct (accepted _ _) as [|g good] eqn:Hacc.
    { destruct (jsonMarshalError env _); cbn; intros []. }
    destruct (dispatchResult env team (g :: good)); cbn;
      [|destruct (jsonMarshalError env _); cbn]; intros _; done.
Qed.

(** X6.  Only addresses that passed both checks are ever handed to the
    mail service.  Whatever call to [SendInviteEmails] appears in a run,
    in either mode: it is the only one, it is for the team the store
    returned, its list is not empty, and every address in it is a valid
    email that the domain rules of the team and of the configuration
    accept; no address that failed a check is in it. *)
Theorem only_checked_addresses_dispatched
    (r : Request) (team : Team) (senderName senderUserId : string)
    (invites : list string) (siteURL : string) :
  In (SendInviteEmailsCall team senderName senderUserId invites siteURL)
     (trace (localInviteUsersToTeam env r)) ->
  Store_Team_Get env (Params_TeamId env) = inl team /\
  dispatches (localInviteUsersToTeam env r) =
    [SendInviteEmailsCall team senderName senderUserId invites siteURL] /\
  invites = accepted (domainsOf env team) (List.map ToLower (Body r)) /\
  invites <> [] /\
  Forall (fun e => IsValidEmail env e = true /\
                   isEmailAddressAllowed e (domainsOf env team) = true)
    invites.
Proof.
  intros Hin.
  assert (Hd : In (SendInviteEmailsCall team senderName senderUserId invites
                     siteURL) (dispatches (localInviteUsersToTeam env r))).
  { apply filter_In. by split. }
  destruct (reaches_or_no_dispatch env r) as [[team' Hreach]|Hnone];
    [|by rewrite Hnone in Hd].
  destruct (dispatch_is_accepted r team' _ Hreach Hd) as (Hne & Hall & _).
  rewrite Hall in Hd. destruct Hd as [Hcall|[]].
  injection Hcall as <- <- <- <- <-.
  destruct Hreach as (_ & _ & _ & Hval & Hteam).
  repeat split; try done.
  apply Forall_and; split;
    [by apply accepted_all_valid | apply accepted_all_allowed].
Qed.

(** X7.  The other two failures of the mail service.  Whenever the handler
    calls the mail service and the call fails with an error that is not
    [NoRateLimiterError]: for [SetupRateLimiterError] the batch fails with
    [app.email.setup_rate_limiter.app_error] and status 500, for any other
    error with [app.email.rate_limit_exceeded.app_error] and status 413;
    the detail holds the team id and the error's text. *)
Theorem setup_and_rate_limit_failures
    (r : Request) (team : Team) (senderName senderUserId : string)
    (invites : list string) (siteURL : string) (err : SendError) :
  In (SendInviteEmailsCall team senderName senderUserId invites siteURL)
     (trace (localInviteUsersToTeam env r)) ->
  SendInviteEmails env team senderName senderUserId invites siteURL = Some err ->
  isNoRateLimiterError err = false ->
  Err (localInviteUsersToTeam env r) =
    Some (NewAppError "SendInviteEmails"
            (if isSetupRateLimiterError err
             then "app.email.setup_rate_limiter.app_error"
             else "app.email.rate_limit_exceeded.app_error")
            []
            ("team_id=" +:+ Team_Id team +:+ ", error=" +:+ sendErrorText err)
            (if isSetupRateLimiterError err
             then StatusInternalServerError
             else StatusRequestEntityTooLarge)).
Proof.
  intros Hin Hsend Hkind.
  assert (Hd : In (SendInviteEmailsCall team senderName senderUserId invites
                     siteURL) (dispatches (localInviteUsersToTeam env r))).
  { apply filter_In. by split. }
  destruct (reaches_or_no_dispatch env r) as [[team' Hreach]|Hnone];
    [|by rewrite Hnone in Hd].
  destruct (dispatch_failure_reported env r team' _ Hreach Hd)
    as (emails & Hcall & Herr).
  injection Hcall as -> -> -> -> ->.
  rewrite (Herr err Hsend). unfold sendErrorToAppError. rewrite Hkind.
  by destruct (isSetupRateLimiterError err).
Qed.

(** X8.  Strict mode, every address accepted and the mail service
    succeeds: the service got the full lower-cased list, the status OK is
    written after the call, no error is set and the audit record, logged
    last, says [Success]. *)
Theorem strict_mode_success (r : Request) (team : Team) :
  reachesMode env r team ->
  Query_graceful r = "" ->
  rejected (domainsOf env team) (List.map ToLower (Body r)) = [] ->
  dispatchResult env team (List.map ToLower (Body r)) = None ->
  let emails := List.map ToLower (Body r) in
  let rec :=
    {| auditEvent := "localInviteUsersToTeam"; auditStatus := Success;
       auditMeta :=
         <["emails" := MetaStrings emails]>
           (<["count" := MetaInt (length emails)]>
              (<["team_id" := MetaString (Params_TeamId env)]> ∅)) |} in
  localInviteUsersToTeam env r =
    {| Err := None;
       auditRec := Some rec;
       trace := [TeamStoreGet (Params_TeamId env);
                 dispatchCall env team emails;
                 WriteStatusOK;
                 LogAuditRec rec] |}.
Proof.
  intros Hreach Hmode Hbad Hsend. cbv zeta. unfold localInviteUsersToTeam.
  rewrite (handlerBody_reaches env r team Hreach), Hmode.
  cbn [String.eqb negb]. unfold bind.
  by rewrite (strictBranch_sends env team _ _ Hbad), Hsend.
Qed.

(** X9.  Graceful mode when no address passes the domain check: the mail
    service is not called, yet the request succeeds; the outcome list,
    every record of which carries an error, is the response, [c.Err] is
    nil and the audit record says [Success]. *)
Theorem graceful_mode_all_rejected (r : Request) (team : Team) :
  reachesMode env r team ->
  Query_graceful r <> "" ->
  accepted (domainsOf env team) (List.map ToLower (Body r)) = [] ->
  jsonMarshalError env
    (List.map (outcomeOf (domainsOf env team)) (List.map ToLower (Body r)))
    = None ->
  let outcomes :=
    List.map (outcomeOf (domainsOf env team)) (List.map ToLower (Body r)) in
  let final := localInviteUsersToTeam env r in
  Err final = None /\
  dispatches final = [] /\
  responses final = [WriteJSON outcomes] /\
  Forall (fun o => Error o = Some (invalidEmailError "Addresses" (Email o)))
    outcomes /\
  (exists rec, last (trace final) = Some (LogAuditRec rec) /\
               auditStatus rec = Success).
Proof.
  intros Hreach Hmode Hacc Hjson. cbv zeta.
  assert (Hall : Forall
    (fun o => Error o = Some (invalidEmailError "Addresses" (Email o)))
    (List.map (outcomeOf (domainsOf env team)) (List.map ToLower (Body r)))).
  { apply List.Forall_forall. intros o Ho.
    apply List.in_map_iff in Ho as (e & <- & He).
    unfold outcomeOf. cbn [Error Email].
    destruct (isEmailAddressAllowed e (domainsOf env team)) eqn:Hallowed;
      [|done].
    assert (Hin : In e (accepted (domainsOf env team)
                          (List.map ToLower (Body r))))
      by (apply List.filter_In; by split).
    rewrite Hacc in Hin. destruct Hin. }
  unfold localInviteUsersToTeam.
  rewrite (handlerBody_reaches env r team Hreach), (graceful_selected r Hmode).
  unfold bind. rewrite gracefulBranch_spec. cbv zeta. rewrite Hacc, Hjson.
  cbn. repeat split; [done | by eexists].
Qed.

(** X10.  Graceful mode when the outcome list cannot be serialised: the
    batch fails with [api.marshal_error] and status 500 and nothing is
    written, but the call to the mail service, made before, stands. *)
Theorem graceful_marshal_failure_after_dispatch
    (r : Request) (team : Team) (jsonErr : string) :
  reachesMode env r team ->
  Query_graceful r <> "" ->
  accepted (domainsOf env team) (List.map ToLower (Body r)) <> [] ->
  dispatchResult env team
    (accepted (domainsOf env team) (List.map ToLower (Body r))) = None ->
  jsonMarshalError env
    (List.map (outcomeOf (domainsOf env team)) (List.map ToLower (Body r)))
    = Some jsonErr ->
  let final := localInviteUsersToTeam env r in
  Err final = Some (NewAppError "localInviteUsersToTeam" "api.marshal_error"
                      [] jsonErr StatusInternalServerError) /\
  responses final = [] /\
  dispatches final =
    [dispatchCall env team
       (accepted (domainsOf env team) (List.map ToLower (Body r)))].
Proof.
  intros Hreach Hmode Hacc Hsend Hjson. cbv zeta. unfold localInviteUsersToTeam.
  rewrite (handlerBody_reaches env r team Hreach), (graceful_selected r Hmode).
  unfold bind. rewrite gracefulBranch_spec. cbv zeta. rewrite Hjson.
  destruct (accepted _ _) as [|g good]; [done|]. by rewrite Hsend.
Qed.

(** X11.  The mode is chosen by the mere presence of a value: any two
    non-empty values of the [graceful] query parameter, ["false"]
    included, give the same run. *)
Theorem graceful_value_is_ignored (body : list string) (q1 q2 : string) :
  q1 <> "" -> q2 <> "" ->
  localInviteUsersToTeam env {| Body := body; Query_graceful := q1 |} =
  localInviteUsersToTeam env {| Body := body; Query_graceful := q2 |}.
Proof.
  intros H1 H2. unfold localInviteUsersToTeam, handlerBody.
  cbn [Body Query_graceful].
  apply String.eqb_neq in H1, H2. by rewrite H1, H2.
Qed.

Lemma lowerAndValidate_lowered (l1 l2 : list string) (st : State) :
  List.map ToLower l1 = List.map ToLower l2 ->
  lowerAndValidate env l1 st = lowerAndValidate env l2 st.
Proof.
  revert l2 st. induction l1 as [|a l1 IH]; intros [|b l2] st Heq;
    try discriminate Heq; [done|].
  cbn [List.map] in Heq. injection Heq as Hab Hrest.
  cbn [lowerAndValidate]. rewrite Hab. unfold bind.
  destruct (when _ _ st) as [[[]|] st']; [|done].
  by rewrite (IH l2 st' Hrest).
Qed.

(** X12.  The handler does not see the case of the addresses: two requests
    in the same mode whose address lists agree once lower-cased give the
    same run (same error, same dispatch, same response, same audit
    record). *)
Theorem handler_ignores_address_case (r1 r2 : Request) :
  List.map ToLower (Body r1) = List.map ToLower (Body r2) ->
  Query_graceful r1 = Query_graceful r2 ->
  localInviteUsersToTeam env r1 = localInviteUsersToTeam env r2.
Proof.
  intros Hbody Hq. unfold localInviteUsersToTeam, handlerBody.
  rewrite Hq.
  assert (Hlen : length (Body r1) = length (Body r2))
    by (by rewrite <- (length_map ToLower), Hbody, length_map).
  rewrite Hlen. unfold bind.
  destruct (c_RequireTeamId env initState) as [[[]|] st0]; [|done].
  destruct (getErr st0) as [[err|] st1]; [|done].
  destruct (when (bool_decide (is_Some err)) return_ st1) as [[[]|] st2];
    [|done].
  destruct (when (negb (EnableEmailInvitations env)) _ st2) as [[[]|] st3];
    [|done].
  destruct (when (length (Body r2) =? 0) _ st3) as [[[]|] st4]; [|done].
  by rewrite (lowerAndValidate_lowered _ _ st4 Hbody).
Qed.

End HandlerDispatch.

(** ** The domain matcher: how rules combine *)

Section MatcherAlgebra.
Context {U : UnicodePaths}.

Lemma isEmailAddressAllowed_cons (email rule : string) (rules : list string) :
  isEmailAddressAllowed email (rule :: rules) =
    isEmailAddressAllowed email [rule] && isEmailAddressAllowed email rules.
Proof.
  cbn [isEmailAddressAllowed]. cbv zeta.
  destruct (length (normalizeDomains rule) <=? 0); [done|].
  by destruct (matchedAny email (normalizeDomains rule)).
Qed.

(** X13.  The rules are a conjunction: a list of rules accepts an address
    exactly when each part of it does, so adding a rule, whether the
    team's or the configuration's, can only turn an acceptance into a
    rejection. *)
Theorem rules_are_a_conjunction (email : string) (rules1 rules2 : list string) :
  isEmailAddressAllowed email (rules1 ++ rules2) =
    isEmailAddressAllowed email rules1 && isEmailAddressAllowed email rules2.
Proof.
  induction rules1 as [|rule rest IH]; [done|].
  rewrite <- app_comm_cons, isEmailAddressAllowed_cons, IH.
  rewrite (isEmailAddressAllowed_cons email rule rest).
  by rewrite andb_assoc.
Qed.

(** X14.  The verdict does not depend on the order of the rules: the team
    rule and the configuration rule may be swapped. *)
Theorem rule_order_is_irrelevant (email : string) (rules1 rules2 : list string) :
  Permutation rules1 rules2 ->
  isEmailAddressAllowed email rules1 = isEmailAddressAllowed email rules2.
Proof.
  induction 1 as [|rule l1 l2 _ IH|r1 r2 l|l1 l2 l3 _ IH1 _ IH2].
  - done.
  - by rewrite (isEmailAddressAllowed_cons email rule l1),
      (isEmailAddressAllowed_cons email rule l2), IH.
  - rewrite (isEmailAddressAllowed_cons email r2 (r1 :: l)),
      (isEmailAddressAllowed_cons email r1 l),
      (isEmailAddressAllowed_cons email r1 (r2 :: l)),
      (isEmailAddressAllowed_cons email r2 l).
    rewrite !andb_assoc. f_equal. apply andb_comm.
  - by rewrite IH1.
Qed.

End MatcherAlgebra.

(** ** [normalizeDomains] on every ASCII rule *)

Lemma consField_nil_iff (w : string) (fs : list string) :
  consField w fs = [] <-> w = "" /\ fs = [].
Proof.
  destruct w as [|c w]; cbn [consField]; split.
  - by intros ->.
  - by intros [_ ->].
  - discriminate.
  - intros [Hw _]. discriminate Hw.
Qed.

Lemma fieldsFrom_nil_iff (t : string) :
  fieldsFrom t = ("", []) <-> all_bytes asciiSpace t = true.
Proof.
  induction t as [|c t IH]; cbn [fieldsFrom all_bytes]; [done|].
  destruct (fieldsFrom t) as [w fs]. destruct (asciiSpace c); cbn [andb].
  - rewrite <- IH. split.
    + intros [= Hnil]. apply consField_nil_iff in Hnil as [-> ->]. done.
    + intros [= -> ->]. done.
  - split; discriminate.
Qed.

Lemma fieldsASCII_nil_iff (t : string) :
  fieldsASCII t = [] <-> all_bytes asciiSpace t = true.
Proof.
  rewrite <- fieldsFrom_nil_iff. unfold fieldsASCII.
  destruct (fieldsFrom t) as [w fs]. rewrite consField_nil_iff.
  split; [by intros [-> ->] | by intros [= -> ->]].
Qed.

(** The fields of a string are non-empty, hold no white space and inherit
    what holds of every byte of the string. *)
Lemma fieldsFrom_tokens (p : ascii -> bool) (t : string) :
  all_bytes p t = true ->
  all_bytes (fun c => p c && negb (asciiSpace c)) (fst (fieldsFrom t)) = true /\
  Forall (fun d => d <> "" /\
                   all_bytes (fun c => p c && negb (asciiSpace c)) d = true)
    (snd (fieldsFrom t)).
Proof.
  induction t as [|c t IH]; cbn [fieldsFrom all_bytes]; [done|].
  intros [Hc Ht]%andb_true_iff. destruct (IH Ht) as [Hw Hfs].
  destruct (fieldsFrom t) as [w fs]. cbn [fst snd] in *.
  destruct (asciiSpace c) eqn:Hsp; cbn [fst snd all_bytes].
  - split; [done|]. destruct w as [|c' w']; [done|].
    cbn [consField]. constructor; [by split | exact Hfs].
  - rewrite Hc, Hsp, Hw. by split.
Qed.

Lemma fieldsASCII_tokens (p : ascii -> bool) (t : string) :
  all_bytes p t = true ->
  Forall (fun d => d <> "" /\
                   all_bytes (fun c => p c && negb (asciiSpace c)) d = true)
    (fieldsASCII t).
Proof.
  intros Ht. destruct (fieldsFrom_tokens p t Ht) as [Hw Hfs].
  unfold fieldsASCII. destruct (fieldsFrom t) as [w fs]. cbn [fst snd] in *.
  destruct w as [|c w]; [done|]. cbn [consField].
  constructor; [by split | exact Hfs].
Qed.

Lemma normByte_normal (c : ascii) :
  isASCIIByte c = true -> isNormalByte (normByte c) = true.
Proof. by_bytes c. Qed.

Lemma normByte_space_iff (c : ascii) :
  isASCIIByte c = true -> asciiSpace (normByte c) = isSeparator c.
Proof. by_bytes c. Qed.

Lemma normal_token_byte (c : ascii) :
  isNormalByte c && negb (asciiSpace c) = true ->
  (isASCIIByte c && negb (isSeparator c) = true) /\
  negb (isUpperByte c) = true.
Proof. by_bytes c. Qed.

Lemma not_upper_lowerByte (c : ascii) :
  negb (isUpperByte c) = true -> lowerByte c = c.
Proof. by_bytes c. Qed.

Lemma isLower_fixed (s : string) :
  isLower s = true -> map_bytes lowerByte s = s.
Proof.
  unfold isLower. induction s as [|c s IH]; cbn [all_bytes map_bytes]; [done|].
  intros [Hc Hs]%andb_true_iff. by rewrite (not_upper_lowerByte c Hc), IH.
Qed.

Lemma all_bytes_ext_iff (p q : ascii -> bool) (s : string) :
  (forall c, isASCIIByte c = true -> p c = q c) ->
  isASCII s = true -> all_bytes p s = all_bytes q s.
Proof.
  intros Hpq. unfold isASCII.
  induction s as [|c s IH]; cbn [all_bytes]; [done|].
  intros [Hc Hs]%andb_true_iff. by rewrite (Hpq c Hc), IH.
Qed.

Lemma all_bytes_map_bytes (p : ascii -> bool) (f : ascii -> ascii) (s : string) :
  all_bytes p (map_bytes f s) = all_bytes (fun c => p (f c)) s.
Proof. induction s as [|c s IH]; cbn [all_bytes map_bytes]; by rewrite ?IH. Qed.

Section NormalizeEveryRule.
Context {U : UnicodePaths}.

Lemma normalizeDomains_tokens (s : string) :
  isASCII s = true ->
  Forall (fun d => isDomainToken d = true /\ isLower d = true)
    (normalizeDomains s).
Proof.
  intros Hs. rewrite (normalizeDomains_ascii s Hs).
  assert (Hn : all_bytes isNormalByte (map_bytes normByte s) = true).
  { revert Hs. apply all_bytes_map, normByte_normal. }
  eapply Forall_impl; [apply (fieldsASCII_tokens _ _ Hn)|].
  intros d [Hne Hd]. cbn beta in Hd. split.
  - unfold isDomainToken. apply andb_true_iff. split.
    + by apply negb_true_iff, String.eqb_neq.
    + revert Hd. apply all_bytes_impl. intros c Hc.
      by apply normal_token_byte.
  - revert Hd. apply all_bytes_impl. intros c Hc. by apply normal_token_byte.
Qed.

(** X15.  On an ASCII rule, [normalizeDomains] only ever yields bare
    lower-case domains: every suffix it returns is non-empty, ASCII, free
    of white space, commas and at signs, and has no upper-case letter. *)
Theorem normalizeDomains_yields_bare_domains (s d : string) :
  isASCII s = true ->
  In d (normalizeDomains s) ->
  isDomainToken d = true /\ isLower d = true.
Proof.
  intros Hs Hd.
  by apply (proj1 (List.Forall_forall _ _) (normalizeDomains_tokens s Hs)).
Qed.

(** X16.  An ASCII rule imposes no restriction exactly when it is made of
    separators only (white space, commas, at signs; the empty rule
    included): [normalizeDomains] returns the empty list for these rules
    and for no other. *)
Theorem rule_is_skipped_iff_only_separators (s : string) :
  isASCII s = true ->
  (normalizeDomains s = [] <-> isSeparators s = true).
Proof.
  intros Hs. rewrite (normalizeDomains_ascii s Hs), fieldsASCII_nil_iff.
  rewrite all_bytes_map_bytes. unfold isSeparators.
  by rewrite (all_bytes_ext_iff _ isSeparator s normByte_space_iff Hs).
Qed.

Lemma tokens_forallb (ds : list string) :
  Forall (fun d => isDomainToken d = true /\ isLower d = true) ds ->
  forallb isDomainToken ds = true /\ List.map (map_bytes lowerByte) ds = ds.
Proof.
  induction 1 as [|d ds [Hd Hlow] _ [IH1 IH2]]; [done|].
  cbn [forallb List.map]. by rewrite Hd, IH1, (isLower_fixed d Hlow), IH2.
Qed.

(** X17.  Normalising is idempotent on ASCII rules: joining the suffixes
    of a rule with single spaces gives a rule with the same suffixes, in
    the same order. *)
Theorem normalizeDomains_idempotent (s : string) :
  isASCII s = true ->
  normalizeDomains (Join (normalizeDomains s) " ") = normalizeDomains s.
Proof.
  intros Hs.
  destruct (tokens_forallb _ (normalizeDomains_tokens s Hs)) as [Htok Hfix].
  rewrite (normalizeDomains_ascii _ (Join_space_ascii _ Htok)).
  by rewrite (fieldsASCII_Join_space _ Htok), Hfix.
Qed.

Lemma normalizeDomains_mixed (items : list (string * string)) (trail : string) :
  forallb wellFormedItem items = true ->
  separated items = true ->
  isSeparators trail = true ->
  normalizeDomains (mixedRule items trail) =
    List.map ToLower (List.map snd items).
Proof.
  intros Hitems Hsep Htrail.
  destruct (ToLower_tokens _ (wellFormed_tokens items Hitems)) as [Hlow _].
  rewrite (normalizeDomains_ascii _ (mixedRule_ascii _ _ Hitems Htrail)).
  rewrite (fieldsASCII_mixed _ _ Hitems Hsep Htrail), Hlow.
  by rewrite List.map_map.
Qed.

(** X18.  What a rule means.  For a rule that lists at least one domain,
    written with any mix of separators and in any case, an address is
    accepted exactly when it ends with an at sign followed by the
    lower-cased form of one of the listed domains. *)
Theorem rule_accepts_iff_listed_domain
    (email : string) (items : list (string * string)) (trail : string) :
  forallb wellFormedItem items = true ->
  separated items = true ->
  isSeparators trail = true ->
  items <> [] ->
  (isEmailAddressAllowed email [mixedRule items trail] = true <->
   exists d, In d (List.map snd items) /\
             exists p, email = p +:+ "@" +:+ ToLower d).
Proof.
  intros Hitems Hsep Htrail Hne. cbn [isEmailAddressAllowed]. cbv zeta.
  rewrite (normalizeDomains_mixed items trail Hitems Hsep Htrail).
  destruct items as [|it items]; [done|]. cbn [List.map length Nat.leb].
  set (ds := List.map snd (it :: items)).
  change (ToLower (snd it) :: List.map ToLower (List.map snd items))
    with (List.map ToLower ds).
  destruct (matchedAny email (List.map ToLower ds)) eqn:Hm; cbn [negb].
  - split; [intros _|done].
    apply matchedAny_spec in Hm as (d' & Hin & Hp).
    apply List.in_map_iff in Hin as (d & <- & Hd). by exists d.
  - split; [done|]. intros (d & Hd & Hp).
    assert (Hex : matchedAny email (List.map ToLower ds) = true).
    { apply matchedAny_spec. exists (ToLower d). split; [|done].
      by apply List.in_map. }
    congruence.
Qed.

(** X19.  No partial matches.  When a non-empty ASCII rule accepts an
    address, the address ends with an at sign followed by one of the
    rule's suffixes, and that suffix is a bare lower-case domain: it holds
    no at sign, no other separator and no upper-case letter.  So what
    follows the last at sign of an accepted address is a listed domain,
    in lower case, not a subdomain of one. *)
Theorem accepted_address_ends_with_bare_domain (email rule : string) :
  isASCII rule = true ->
  normalizeDomains rule <> [] ->
  isEmailAddressAllowed email [rule] = true ->
  exists p d,
    email = p +:+ "@" +:+ d /\ In d (normalizeDomains rule) /\
    isDomainToken d = true /\ isLower d = true.
Proof.
  intros Hascii Hne. cbn [isEmailAddressAllowed]. cbv zeta.
  destruct (normalizeDomains rule) as [|d0 ds] eqn:Hnorm; [done|].
  cbn [length Nat.leb].
  destruct (matchedAny email (d0 :: ds)) eqn:Hm; cbn [negb]; [|done].
  intros _. apply matchedAny_spec in Hm as (d & Hin & p & Hp).
  exists p, d. pose proof Hin as Hin'. rewrite <- Hnorm in Hin'.
  destruct (proj1 (List.Forall_forall _ _) (normalizeDomains_tokens rule Hascii)
              d Hin') as [Htok Hlow].
  by repeat split.
Qed.

End NormalizeEveryRule.

(** ** The resolver: every store answer *)

Lemma last_None_nil {A} (l : list A) : last l = None -> l = [].
Proof.
  induction l as [|x [|y l] IH]; cbn; [done | discriminate |].
  intros Hl. specialize (IH Hl). discriminate IH.
Qed.

Lemma last_cons_Some {A} (x y : A) (l : list A) :
  last l = Some y -> last (x :: l) = Some y.
Proof. by destruct l. Qed.

Lemma buildOrderMap_last (categories : list SidebarCategoryWithChannels)
    (orderMap : gmap string SidebarCategoryWithChannels) (id : string) :
  buildOrderMap categories orderMap !! id =
    match lastWithId id categories with
    | Some c => Some c
    | None => orderMap !! id
    end.
Proof.
  revert orderMap. unfold lastWithId.
  induction categories as [|c rest IH]; intros m; [done|].
  cbn [buildOrderMap List.filter]. rewrite IH.
  destruct (String.eqb (Category_Id c) id) eqn:Hid.
  - apply String.eqb_eq in Hid.
    destruct (last (List.filter _ rest)) as [c'|] eqn:Hlast.
    + by rewrite (last_cons_Some c c' _ Hlast).
    + rewrite (last_None_nil _ Hlast). cbn. rewrite <- Hid.
      apply lookup_insert_eq.
  - apply String.eqb_neq in Hid.
    destruct (last (List.filter _ rest)); [done|].
    by apply lookup_insert_ne.
Qed.

Lemma SidebarCategories_run (env : ResolverEnv) (tm : TeamMember)
    (categories : OrderedSidebarCategories) :
  getCtx env = None ->
  SessionHasPermissionToUser env (UserId tm) = true ->
  GetSidebarCategories env (UserId tm) (TeamId tm) = inl categories ->
  SidebarCategories env tm =
    inl (List.map (fun id => buildOrderMap (Categories categories) ∅ !! id)
           (Order categories)).
Proof.
  intros H1 H2 H3. unfold SidebarCategories. rewrite H1, H2, H3.
  cbn [negb]. by rewrite collectInOrder_spec.
Qed.

(** X20.  What the resolver returns for any store answer, distinct ids or
    not: the i-th entry is the last category of [Categories] that carries
    the i-th id of [Order], nil when none does.  So when two categories
    share an id the later one wins, an id repeated in [Order] repeats its
    category, and a category whose id is not in [Order] is left out. *)
Theorem SidebarCategories_last_duplicate_wins
    (env : ResolverEnv) (tm : TeamMember) (categories : OrderedSidebarCategories) :
  getCtx env = None ->
  SessionHasPermissionToUser env (UserId tm) = true ->
  GetSidebarCategories env (UserId tm) (TeamId tm) = inl categories ->
  SidebarCategories env tm =
    inl (List.map (fun id => lastWithId id (Categories categories))
           (Order categories)).
Proof.
  intros H1 H2 H3. rewrite (SidebarCategories_run env tm categories H1 H2 H3).
  f_equal. apply List.map_ext. intros id. rewrite buildOrderMap_last.
  by destruct (lastWithId id (Categories categories)).
Qed.

(** X21.  When [Order] lists the ids of [Categories] one by one (distinct
    ids, same order), the resolver hands back [Categories] unchanged, no
    entry nil. *)
Theorem SidebarCategories_identity_order
    (env : ResolverEnv) (tm : TeamMember) (categories : OrderedSidebarCategories) :
  getCtx env = None ->
  SessionHasPermissionToUser env (UserId tm) = true ->
  GetSidebarCategories env (UserId tm) (TeamId tm) = inl categories ->
  List.NoDup (List.map Category_Id (Categories categories)) ->
  Order categories = List.map Category_Id (Categories categories) ->
  SidebarCategories env tm = inl (List.map Some (Categories categories)).
Proof.
  intros H1 H2 H3 Hnd Horder.
  rewrite (SidebarCategories_run env tm categories H1 H2 H3), Horder.
  f_equal. rewrite List.map_map. apply List.map_ext_in. intros c Hc.
  by apply buildOrderMap_present.
Qed.

(** X22.  The gates of the resolver.  It returns categories only when the
    context is there, the session may act for the member's user and the
    store answers; without the permission it returns the permission error
    whatever the store would have answered, and an error of the store is
    passed on unchanged. *)
Theorem SidebarCategories_gates (env : ResolverEnv) (tm : TeamMember) :
  ((exists res, SidebarCategories env tm = inl res) <->
   getCtx env = None /\
   SessionHasPermissionToUser env (UserId tm) = true /\
   exists categories,
     GetSidebarCategories env (UserId tm) (TeamId tm) = inl categories) /\
  (getCtx env = None ->
   SessionHasPermissionToUser env (UserId tm) = false ->
   SidebarCategories env tm = inr (AppErr (PermissionError env))) /\
  (forall appErr,
     getCtx env = None ->
     SessionHasPermissionToUser env (UserId tm) = true ->
     GetSidebarCategories env (UserId tm) (TeamId tm) = inr appErr ->
     SidebarCategories env tm = inr (AppErr appErr)).
Proof.
  unfold SidebarCategories. split; [split|split].
  - intros [res Hres].
    destruct (getCtx env); [discriminate Hres|].
    destruct (SessionHasPermissionToUser env (UserId tm));
      [|discriminate Hres].
    destruct (GetSidebarCategories env _ _) as [cs|e]; [|discriminate Hres].
    repeat split. by exists cs.
  - intros (-> & -> & cs & ->). by eexists.
  - by intros -> ->.
  - by intros appErr -> -> ->.
Qed.

(** ** The roles of a member *)

Lemma word_parts (w : string) :
  isWord w = true ->
  w <> "" /\ isASCII w = true /\
  all_bytes (fun c => negb (asciiSpace c)) w = true.
Proof.
  unfold isWord. intros [Hne Hall]%andb_true_iff.
  apply negb_true_iff, String.eqb_neq in Hne. repeat split; [done|..].
  - revert Hall. apply all_bytes_impl. by intros c [? _]%andb_true_iff.
  - revert Hall. apply all_bytes_impl. by intros c [_ ?]%andb_true_iff.
Qed.

Lemma Join_words_ascii (names : list string) :
  forallb isWord names = true -> isASCII (Join names " ") = true.
Proof.
  induction names as [|w names IH]; [done|]. cbn [forallb].
  intros [Hw Hrest]%andb_true_iff.
  apply word_parts in Hw as (_ & Hw & _).
  destruct names as [|w' rest]; [done|].
  rewrite Join_cons2. unfold isASCII in *.
  by rewrite !all_bytes_app, (IH Hrest), Hw.
Qed.

Lemma fieldsASCII_Join_words (names : list string) :
  forallb isWord names = true -> fieldsASCII (Join names " ") = names.
Proof.
  induction names as [|w names IH]; [done|]. cbn [forallb].
  intros [Hw Hrest]%andb_true_iff.
  apply word_parts in Hw as (Hne & _ & Hword).
  destruct names as [|w' rest].
  - cbn [Join]. rewrite <- (append_nil_r w) at 1.
    by rewrite (fieldsASCII_word_then w "" [] Hword Hne).
  - rewrite Join_cons2.
    rewrite (fieldsASCII_word_then w _ (w' :: rest) Hword Hne); [done|].
    rewrite fieldsFrom_spaces by done. by rewrite (IH Hrest).
Qed.

Section RolesClaims.
Context {U : UnicodePaths}.
Variable Role : Type.
Variable getGraphQLRoles : list string -> list Role + ResolverError.

(** X23.  Round trip of the role names.  When the [Roles] string of the
    member is a list of role names joined with single spaces (each name
    non-empty, ASCII and free of white space), the loader is asked for
    exactly these names, in this order. *)
Theorem Roles_splits_joined_names
    (env : ResolverEnv) (tm : TeamMember) (names : list string) :
  getCtx env = None ->
  forallb isWord names = true ->
  Roles tm = Join names " " ->
  Roles_ Role getGraphQLRoles env tm = getGraphQLRoles names.
Proof.
  intros Hctx Hnames Hroles. unfold Roles_, Fields.
  by rewrite Hctx, Hroles, (Join_words_ascii _ Hnames),
    (fieldsASCII_Join_words _ Hnames).
Qed.

(** X24.  For any ASCII [Roles] string the loader is asked for names that
    are non-empty and free of white space, however many spaces, tabs or
    line breaks separate them; it is asked for no name at all exactly when
    the string is blank. *)
Theorem Roles_asks_for_words (env : ResolverEnv) (tm : TeamMember) :
  getCtx env = None ->
  isASCII (Roles tm) = true ->
  exists names,
    Roles_ Role getGraphQLRoles env tm = getGraphQLRoles names /\
    forallb isWord names = true /\
    (names = [] <-> all_bytes asciiSpace (Roles tm) = true).
Proof.
  intros Hctx Hascii. exists (fieldsASCII (Roles tm)).
  unfold Roles_, Fields. rewrite Hctx, Hascii. split; [done|]. split.
  - apply forallb_forall. intros w Hw.
    destruct (proj1 (List.Forall_forall _ _)
                (fieldsASCII_tokens isASCIIByte (Roles tm) Hascii) w Hw)
      as [Hne Hall].
    unfold isWord. apply andb_true_iff. split; [|done].
    by apply negb_true_iff, String.eqb_neq.
  - apply fieldsASCII_nil_iff.
Qed.

End RolesClaims.

(** ** Deleting a team *)

Ltac in_cases H :=
  cbn [In] in H;
  repeat (destruct H as [H|H]; [try discriminate H|]);
  try (exfalso; exact H).

(** X25.  Once the team id is accepted, the handler issues exactly one
    delete, the permanent one when [Permanent] is set and the soft one
    otherwise, never both; it does so whether or not the team could be
    fetched first, the fetched team serving the audit record only. *)
Theorem localDeleteTeam_issues_one_delete (env : DeleteEnv) :
  del_RequireTeamId env = None ->
  List.filter isDeleteCall (team_trace (localDeleteTeam env)) =
    [if del_Permanent env
     then PermanentDeleteTeamIdCall (del_TeamId env)
     else SoftDeleteTeamCall (del_TeamId env)].
Proof.
  intros Hreq. unfold localDeleteTeam. rewrite Hreq. cbv zeta.
  destruct (del_Permanent env).
  - by destruct (App_PermanentDeleteTeamId env _).
  - by destruct (App_SoftDeleteTeam env _).
Qed.

(** X26.  The outcome of a delete, for every request: the status OK is
    written exactly when no error is set; the audit record that is logged
    says [Success] exactly then, and holds the team under ["team"] exactly
    when the team could be fetched; an error of the delete operation is
    put in [c.Err] unchanged. *)
Theorem localDeleteTeam_outcome (env : DeleteEnv) :
  let final := localDeleteTeam env in
  (team_Err final = None <-> In ReturnStatusOK (team_trace final)) /\
  (forall rec, In (LogTeamAuditRec rec) (team_trace final) ->
     (teamAuditStatus rec = Success <-> team_Err final = None) /\
     teamAuditMeta rec !! "team" =
       match App_GetTeam env (del_TeamId env) with
       | inl team => Some team
       | inr _ => None
       end) /\
  (del_RequireTeamId env = None ->
   team_Err final =
     if del_Permanent env
     then App_PermanentDeleteTeamId env (del_TeamId env)
     else App_SoftDeleteTeam env (del_TeamId env)).
Proof.
  cbv zeta. unfold localDeleteTeam.
  destruct (del_RequireTeamId env) as [e|].
  { cbn. split; [split; [discriminate | intros []]|].
    split; [intros rec [] | discriminate]. }
  cbv zeta.
  destruct (App_GetTeam env (del_TeamId env)) as [team|getErr];
    (destruct (del_Permanent env);
     [destruct (App_PermanentDeleteTeamId env _) as [e|]
     |destruct (App_SoftDeleteTeam env _) as [e|]]);
    cbn [team_Err team_trace].
  all: split;
    [split;
     [intros H; try discriminate H; right; right; by left
     |intros H; in_cases H; done]
    |split; [|done]].
  all: intros rec H; in_cases H; injection H as <-.
  all: split; [by split | cbn; by rewrite ?lookup_insert_eq].
Qed.

(** ** Creating a team *)

Lemma lowerByte_not_upper (c : ascii) : negb (isUpperByte (lowerByte c)) = true.
Proof. by_bytes c. Qed.

Lemma map_lowerByte_isLower (s : string) : isLower (map_bytes lowerByte s) = true.
Proof.
  unfold isLower. rewrite all_bytes_map_bytes.
  induction s as [|c s IH]; cbn [all_bytes]; [done|].
  by rewrite lowerByte_not_upper, IH.
Qed.

Section CreateTeamClaims.
Context {U : UnicodePaths}.

(** X27.  When the body decodes, [CreateTeam] is called exactly once, with
    the decoded team in which only the email was rewritten to
    [ToLower(email)]; for an ASCII email no upper-case letter reaches
    [CreateTeam]. *)
Theorem localCreateTeam_lowercases_email (env : CreateEnv) (team : TeamWithEmail) :
  decodeTeam env = Some team ->
  exists sent,
    List.filter isCreateCall (team_trace (localCreateTeam env)) =
      [CreateTeamCall sent] /\
    Team_Fields sent = Team_Fields team /\
    Team_Email sent = ToLower (Team_Email team) /\
    (isASCII (Team_Email team) = true -> isLower (Team_Email sent) = true).
Proof.
  intros Hdec.
  exists {| Team_Fields := Team_Fields team;
            Team_Email := ToLower (Team_Email team) |}.
  unfold localCreateTeam. rewrite Hdec. cbv zeta.
  split; [|split; [reflexivity|split; [reflexivity|]]].
  - destruct (App_CreateTeam env _) as [team' [rteam|err]]; [|reflexivity].
    cbn [team_trace]. by destruct (encodeError env rteam).
  - intros Hascii. cbn [Team_Email]. rewrite (ToLower_ascii _ Hascii).
    apply map_lowerByte_isLower.
Qed.

(** X28.  The outcome of a creation, for every request: the status 201 is
    written exactly when no error is set, and the audit record that is
    logged says [Success] exactly then; a body that does not decode gives
    the invalid-parameter error for [team] with no call to [CreateTeam]
    and no audit record; an error of [CreateTeam] is put in [c.Err]
    unchanged and nothing is written. *)
Theorem localCreateTeam_outcome (env : CreateEnv) :
  let final := localCreateTeam env in
  (team_Err final = None <-> In (WriteHeader StatusCreated) (team_trace final)) /\
  (forall rec, In (LogTeamAuditRec rec) (team_trace final) ->
     (teamAuditStatus rec = Success <-> team_Err final = None)) /\
  (decodeTeam env = None ->
   final = {| team_Err := Some (create_InvalidParamError env "team");
              team_trace := [] |}) /\
  (forall team team' err,
     decodeTeam env = Some team ->
     App_CreateTeam env
       {| Team_Fields := Team_Fields team;
          Team_Email := ToLower (Team_Email team) |} = (team', inr err) ->
     team_Err final = Some err /\
     forall e, In e (team_trace final) ->
       e <> ReturnStatusOK /\
       (forall status, e <> WriteHeader status) /\
       (forall rteam, e <> EncodeCall rteam)).
Proof.
  cbv zeta. unfold localCreateTeam.
  destruct (decodeTeam env) as [team|].
  2: { cbn. split; [split; [discriminate | intros []]|].
       split; [intros rec []|]. split; [done | discriminate]. }
  cbv zeta.
  destruct (App_CreateTeam env _) as [team' [rteam|err]] eqn:Hcreate.
  - split; [split; [intros _; right; by left | done]|].
    split; [|split; [discriminate|]].
    + intros rec H. cbn [team_trace] in H.
      destruct (encodeError env rteam); in_cases H; injection H as <-;
        by split.
    + intros team0 team0' err [= <-] Hc. rewrite Hcreate in Hc.
      discriminate Hc.
  - cbn [team_Err team_trace].
    split; [split; [discriminate | intros H; in_cases H]|].
    split; [|split; [discriminate|]].
    + intros rec H. in_cases H. injection H as <-. by split.
    + intros team0 team0' err0 [= <-] Hc. rewrite Hcreate in Hc.
      injection Hc as <- <-. split; [done|].
      intros e H. in_cases H; subst e; repeat split; discriminate.
Qed.

(** X29.  A successful creation echoes what [CreateTeam] returned: the
    status 201 is written, then the returned team is encoded as it is;
    the audit record, logged last, says [Success] and holds under
    ["team"] the team as [CreateTeam] left it.  A failure to encode
    changes none of this: it is only logged as a warning and [c.Err]
    stays nil. *)
Theorem localCreateTeam_echoes_created_team
    (env : CreateEnv) (team team' rteam : TeamWithEmail) :
  decodeTeam env = Some team ->
  App_CreateTeam env
    {| Team_Fields := Team_Fields team;
       Team_Email := ToLower (Team_Email team) |} = (team', inl rteam) ->
  let final := localCreateTeam env in
  team_Err final = None /\
  (exists warn rec,
     team_trace final =
       [CreateTeamCall {| Team_Fields := Team_Fields team;
                          Team_Email := ToLower (Team_Email team) |};
        WriteHeader StatusCreated;
        EncodeCall rteam] ++ warn ++ [LogTeamAuditRec rec] /\
     warn = match encodeError env rteam with
            | Some _ => [Warn "Error while writing response"]
            | None => []
            end /\
     teamAuditStatus rec = Success /\
     teamAuditMeta rec !! "team" = Some team').
Proof.
  intros Hdec Hcreate. cbv zeta. unfold localCreateTeam.
  rewrite Hdec. cbv zeta. rewrite Hcreate. cbn [team_Err team_trace].
  split; [done|]. eexists _, _. split; [reflexivity|].
  split; [done|]. split; [done|]. cbn. apply lookup_insert_eq.
Qed.

End CreateTeamClaims.

(** * The theorems at concrete requests *)

#[local] Existing Instance asciiOnly.

Lemma exampleEnv_reaches (send : option SendError) (q : string) :
  reachesMode (exampleEnv send) {| Body := threeAddresses; Query_graceful := q |}
    teamA.
Proof.
  repeat split; [discriminate|].
  repeat (constructor; [reflexivity|]). constructor.
Defined.

(** The batch of three addresses of which the second fails the domain
    check, in graceful mode. *)
Lemma graceful_mode_outcomes_witness :
  dispatches (localInviteUsersToTeam (exampleEnv None) reqGraceful) =
    [dispatchCall (exampleEnv None) teamA ["u1@a.com"; "u3@a.com"]] /\
  responses (localInviteUsersToTeam (exampleEnv None) reqGraceful) =
    [WriteJSON
       [{| Email := "u1@a.com"; Error := None |};
        {| Email := "u2@b.com";
           Error := Some (invalidEmailError "Addresses" "u2@b.com") |};
        {| Email := "u3@a.com"; Error := None |}]].
Proof.
  destruct (graceful_mode_outcomes (exampleEnv None) reqGraceful teamA
              (exampleEnv_reaches None "true"))
    as (Hd & _ & _ & Hresp); [discriminate|].
  split; [exact Hd|].
  apply Hresp; [right; reflexivity | reflexivity].
Defined.

(** The spec's sentence that the outcome list is the response however the
    dispatch ends does not hold: with a failing mail service nothing is
    written. *)
Lemma graceful_outcomes_regardless_counterexample :
  ~ (forall (env : Env) (r : Request) (team : Team),
       reachesMode env r team ->
       Query_graceful r <> "" ->
       responses (localInviteUsersToTeam env r) =
         [WriteJSON (List.map (outcomeOf (domainsOf env team))
                       (List.map ToLower (Body r)))]).
Proof.
  intros Hclaim.
  specialize (Hclaim (exampleEnv (Some noRateLimiter)) reqGraceful teamA
                (exampleEnv_reaches _ "true")).
  assert (Hq : Query_graceful reqGraceful <> "") by discriminate.
  specialize (Hclaim Hq). vm_compute in Hclaim. discriminate Hclaim.
Qed.

Lemma strict_mode_all_or_nothing_witness :
  (Err (localInviteUsersToTeam (exampleEnv None) reqStrictTwoRejected) =
     Some (NewAppError "localInviteUsersToTeam"
             "api.team.invite_members.invalid_email.app_error"
             [("Addresses", "u2@b.com, u4@c.org")] "" StatusBadRequest) /\
   dispatches (localInviteUsersToTeam (exampleEnv None) reqStrictTwoRejected)
     = [] /\
   responses (localInviteUsersToTeam (exampleEnv None) reqStrictTwoRejected)
     = []) /\
  dispatches (localInviteUsersToTeam (exampleEnv None) reqStrictAccepted) =
    [SendInviteEmailsCall teamA "Administrator" "mmctl id0"
       ["u1@a.com"; "u3@a.com"] "http://localhost:8065"].
Proof.
  split.
  - assert (Hreach : reachesMode (exampleEnv None) reqStrictTwoRejected teamA).
    { repeat split; [discriminate|].
      repeat (constructor; [reflexivity|]). constructor. }
    destruct (strict_mode_all_or_nothing (exampleEnv None)
                reqStrictTwoRejected teamA Hreach eq_refl) as [Hbad _].
    apply Hbad. discriminate.
  - assert (Hreach : reachesMode (exampleEnv None) reqStrictAccepted teamA).
    { repeat split; [discriminate|].
      repeat (constructor; [reflexivity|]). constructor. }
    destruct (strict_mode_all_or_nothing (exampleEnv None)
                reqStrictAccepted teamA Hreach eq_refl) as [_ Hgood].
    apply Hgood. reflexivity.
Defined.

Lemma graceful_dispatch_failure_witness :
  Err (localInviteUsersToTeam (exampleEnv (Some noRateLimiter)) reqGraceful) =
    Some (sendErrorToAppError teamA noRateLimiter) /\
  responses (localInviteUsersToTeam (exampleEnv (Some noRateLimiter)) reqGraceful)
    = [] /\
  (exists rec,
     last (trace (localInviteUsersToTeam (exampleEnv (Some noRateLimiter))
                    reqGraceful)) = Some (LogAuditRec rec) /\
     auditStatus rec = Fail).
Proof.
  apply (graceful_dispatch_failure_discards_outcomes
           (exampleEnv (Some noRateLimiter)) reqGraceful teamA noRateLimiter
           (exampleEnv_reaches _ "true")).
  - discriminate.
  - discriminate.
  - reflexivity.
Defined.

Lemma invalid_format_aborts_batch_witness :
  exists l1 e l2,
    Body reqMalformed = l1 ++ e :: l2 /\
    Forall (validLower (exampleEnv None)) l1 /\
    IsValidEmail (exampleEnv None) (ToLower e) = false /\
    localInviteUsersToTeam (exampleEnv None) reqMalformed =
      {| Err := Some (NewAppError "localInviteUsersToTeam"
                        "api.team.invite_members.invalid_email.app_error"
                        [("Address", ToLower e)] "" StatusBadRequest);
         auditRec := None;
         trace := [] |}.
Proof.
  apply (invalid_format_aborts_batch (exampleEnv None) reqMalformed).
  - reflexivity.
  - reflexivity.
  - apply Exists_cons_tl, Exists_cons_hd. reflexivity.
Defined.

Lemma no_rate_limiter_witness :
  Err (localInviteUsersToTeam (exampleEnv (Some noRateLimiter))
         reqStrictAccepted) =
    Some (NewAppError "SendInviteEmails" "app.email.no_rate_limiter.app_error"
            [] ("team_id=" +:+ Team_Id teamA) StatusInternalServerError).
Proof.
  apply (no_rate_limiter_is_internal_server_error
           (exampleEnv (Some noRateLimiter)) reqStrictAccepted teamA
           "Administrator" "mmctl id0" ["u1@a.com"; "u3@a.com"]
           "http://localhost:8065" noRateLimiter).
  - vm_compute. right. left. reflexivity.
  - reflexivity.
  - reflexivity.
Defined.

(** The status of that error is 500, not 503. *)
Lemma no_rate_limiter_service_unavailable_counterexample :
  ~ (forall (env : Env) (r : Request) (team : Team)
       (senderName senderUserId : string) (invites : list string)
       (siteURL : string) (err : SendError),
       In (SendInviteEmailsCall team senderName senderUserId invites siteURL)
          (trace (localInviteUsersToTeam env r)) ->
       SendInviteEmails env team senderName senderUserId invites siteURL
         = Some err ->
       isNoRateLimiterError err = true ->
       exists e, Err (localInviteUsersToTeam env r) = Some e /\
                 Err_StatusCode e = StatusServiceUnavailable).
Proof.
  intros Hclaim.
  destruct (Hclaim (exampleEnv (Some noRateLimiter)) reqStrictAccepted teamA
              "Administrator" "mmctl id0" ["u1@a.com"; "u3@a.com"]
              "http://localhost:8065" noRateLimiter) as (e & He & Hstatus).
  - vm_compute. right. left. reflexivity.
  - reflexivity.
  - reflexivity.
  - vm_compute in He. injection He as <-. discriminate Hstatus.
Qed.

(** The rule of the spec's example, with an upper-case domain added. *)
Lemma normalizeDomains_separator_insensitive_witness :
  normalizeDomains "@Corp.X.com, y.com z.org" =
    normalizeDomains (canonicalRule ["Corp.X.com"; "y.com"; "z.org"]) /\
  normalizeDomains "@Corp.X.com, y.com z.org" =
    ["corp.x.com"; "y.com"; "z.org"].
Proof.
  apply (normalizeDomains_separator_insensitive
           [("@", "Corp.X.com"); (", ", "y.com"); (" ", "z.org")] "").
  - reflexivity.
  - reflexivity.
  - reflexivity.
Defined.

Lemma isEmailAddressAllowed_and_of_ors_witness :
  isEmailAddressAllowed "user@a.com" ["a.com"; "b.com"] = false /\
  isEmailAddressAllowed "user@a.com" [""; " , @"] = true.
Proof.
  destruct (isEmailAddressAllowed_and_of_ors "user@a.com" [""; " , @"])
    as [_ Hempty].
  split; [reflexivity|]. apply Hempty.
  intros rule [<-|[<-|[]]]; reflexivity.
Defined.

Lemma SidebarCategories_follows_order_witness :
  SidebarCategories
    (exampleResolverEnv [categoryOf "channels"; categoryOf "favorites"])
    memberA =
  inl [Some (categoryOf "favorites"); None; Some (categoryOf "channels")] /\
  SidebarCategories
    (exampleResolverEnv [categoryOf "favorites"; categoryOf "channels"])
    memberA =
  inl [Some (categoryOf "favorites"); None; Some (categoryOf "channels")].
Proof.
  destruct (SidebarCategories_follows_order
              (exampleResolverEnv [categoryOf "channels"; categoryOf "favorites"])
              memberA
              {| Categories := [categoryOf "channels"; categoryOf "favorites"];
                 Order := ["favorites"; "gone"; "channels"] |}
              eq_refl eq_refl eq_refl)
    as (res & Hres & _ & _ & Hperm).
  - apply List.NoDup_cons; [cbn; intros [Heq|[]]; discriminate Heq|].
    apply List.NoDup_cons; [intros []|]. apply List.NoDup_nil.
  - assert (Heq : res =
      [Some (categoryOf "favorites"); None; Some (categoryOf "channels")]).
    { vm_compute in Hres. by injection Hres as <-. }
    rewrite <- Heq. split; [exact Hres|].
    apply (Hperm (exampleResolverEnv
                    [categoryOf "favorites"; categoryOf "channels"])
             {| Categories := [categoryOf "favorites"; categoryOf "channels"];
                Order := ["favorites"; "gone"; "channels"] |});
      try reflexivity.
    apply perm_swap.
Defined.

(** * The further properties at concrete inputs *)

Lemma empty_batch_is_invalid_param_witness :
  localInviteUsersToTeam (exampleEnv None) reqEmpty =
    {| Err := Some (InvalidParamError (exampleEnv None) "user_email");
       auditRec := None;
       trace := [] |}.
Proof.
  apply (empty_batch_is_invalid_param (exampleEnv None) reqEmpty);
    reflexivity.
Defined.

Lemma invitations_disabled_witness :
  localInviteUsersToTeam (exampleEnvWith false (inl teamA) None None) reqEmpty =
    {| Err := Some (NewAppError "localInviteUsersToTeam"
                      "api.team.invite_members.disabled.app_error" [] ""
                      StatusNotImplemented);
       auditRec := None;
       trace := [] |}.
Proof.
  apply (invitations_disabled_is_not_implemented
           (exampleEnvWith false (inl teamA) None None) reqEmpty);
    reflexivity.
Defined.

Lemma team_lookup_failure_witness :
  Err (localInviteUsersToTeam
         (exampleEnvWith true (inr (ErrNotFound "no such team")) None None)
         reqStrict) =
    Some (NewAppError "localInviteUsersToTeam" "app.team.get.find.app_error"
            [] "no such team" StatusNotFound).
Proof.
  rewrite (team_lookup_failure
             (exampleEnvWith true (inr (ErrNotFound "no such team")) None None)
             reqStrict (ErrNotFound "no such team")).
  - reflexivity.
  - reflexivity.
  - reflexivity.
  - discriminate.
  - repeat (constructor; [reflexivity|]). constructor.
  - reflexivity.
Defined.

Lemma audit_success_iff_no_error_witness :
  exists rec,
    In (LogAuditRec rec)
       (trace (localInviteUsersToTeam (exampleEnv None) reqGraceful)) /\
    (auditStatus rec = Success <->
     Err (localInviteUsersToTeam (exampleEnv None) reqGraceful) = None).
Proof.
  assert (Hin : exists rec,
    In (LogAuditRec rec)
       (trace (localInviteUsersToTeam (exampleEnv None) reqGraceful))).
  { eexists. vm_compute. do 3 right. left. reflexivity. }
  destruct Hin as [rec Hin]. exists rec. split; [exact Hin|].
  exact (audit_success_iff_no_error (exampleEnv None) reqGraceful rec Hin).
Defined.

Lemma only_checked_addresses_dispatched_witness :
  dispatches (localInviteUsersToTeam (exampleEnv None) reqGraceful) =
    [SendInviteEmailsCall teamA "Administrator" "mmctl id0"
       ["u1@a.com"; "u3@a.com"] "http://localhost:8065"] /\
  Forall (fun e => IsValidEmail (exampleEnv None) e = true /\
                   isEmailAddressAllowed e (domainsOf (exampleEnv None) teamA)
                     = true)
    ["u1@a.com"; "u3@a.com"].
Proof.
  destruct (only_checked_addresses_dispatched (exampleEnv None) reqGraceful
              teamA "Administrator" "mmctl id0" ["u1@a.com"; "u3@a.com"]
              "http://localhost:8065")
    as (_ & Hd & _ & _ & Hall).
  - vm_compute. right. left. reflexivity.
  - by split.
Defined.

Lemma setup_and_rate_limit_failures_witness :
  Err (localInviteUsersToTeam
         (exampleEnvWith true (inl teamA) (Some setupRateLimiter) None)
         reqStrictAccepted) =
    Some (NewAppError "SendInviteEmails"
            "app.email.setup_rate_limiter.app_error" []
            "team_id=team-a, error=unable to setup email rate limiter"
            StatusInternalServerError).
Proof.
  apply (setup_and_rate_limit_failures
           (exampleEnvWith true (inl teamA) (Some setupRateLimiter) None)
           reqStrictAccepted teamA "Administrator" "mmctl id0"
           ["u1@a.com"; "u3@a.com"] "http://localhost:8065" setupRateLimiter).
  - vm_compute. right. left. reflexivity.
  - reflexivity.
  - reflexivity.
Defined.

Lemma exampleEnv_accepted_reaches (send : option SendError) :
  reachesMode (exampleEnv send) reqStrictAccepted teamA.
Proof.
  repeat split; [discriminate|].
  repeat (constructor; [reflexivity|]). constructor.
Defined.

Lemma strict_mode_success_witness :
  Err (localInviteUsersToTeam (exampleEnv None) reqStrictAccepted) = None /\
  responses (localInviteUsersToTeam (exampleEnv None) reqStrictAccepted) =
    [WriteStatusOK] /\
  dispatches (localInviteUsersToTeam (exampleEnv None) reqStrictAccepted) =
    [dispatchCall (exampleEnv None) teamA ["u1@a.com"; "u3@a.com"]].
Proof.
  rewrite (strict_mode_success (exampleEnv None) reqStrictAccepted teamA
             (exampleEnv_accepted_reaches None) eq_refl eq_refl eq_refl).
  by repeat split.
Defined.

Lemma exampleEnv_rejected_reaches :
  reachesMode (exampleEnv None) reqGracefulRejected teamA.
Proof.
  repeat split; [discriminate|].
  repeat (constructor; [reflexivity|]). constructor.
Defined.

Lemma graceful_mode_all_rejected_witness :
  Err (localInviteUsersToTeam (exampleEnv None) reqGracefulRejected) = None /\
  dispatches (localInviteUsersToTeam (exampleEnv None) reqGracefulRejected) = [] /\
  responses (localInviteUsersToTeam (exampleEnv None) reqGracefulRejected) =
    [WriteJSON
       [{| Email := "u2@b.com";
           Error := Some (invalidEmailError "Addresses" "u2@b.com") |}]].
Proof.
  destruct (graceful_mode_all_rejected (exampleEnv None) reqGracefulRejected
              teamA exampleEnv_rejected_reaches)
    as (Herr & Hd & Hresp & _); [discriminate | reflexivity | reflexivity |].
  by repeat split.
Defined.

Lemma exampleEnvWith_reaches (send : option SendError) (marshal : option string) :
  reachesMode (exampleEnvWith true (inl teamA) send marshal) reqGraceful teamA.
Proof.
  repeat split; [discriminate|].
  repeat (constructor; [reflexivity|]). constructor.
Defined.

Lemma graceful_marshal_failure_witness :
  Err (localInviteUsersToTeam
         (exampleEnvWith true (inl teamA) None (Some "unsupported value"))
         reqGraceful) =
    Some (NewAppError "localInviteUsersToTeam" "api.marshal_error" []
            "unsupported value" StatusInternalServerError) /\
  responses (localInviteUsersToTeam
               (exampleEnvWith true (inl teamA) None (Some "unsupported value"))
               reqGraceful) = [] /\
  dispatches (localInviteUsersToTeam
                (exampleEnvWith true (inl teamA) None (Some "unsupported value"))
                reqGraceful) =
    [dispatchCall
       (exampleEnvWith true (inl teamA) None (Some "unsupported value"))
       teamA ["u1@a.com"; "u3@a.com"]].
Proof.
  apply (graceful_marshal_failure_after_dispatch
           (exampleEnvWith true (inl teamA) None (Some "unsupported value"))
           reqGraceful teamA "unsupported value"
           (exampleEnvWith_reaches None (Some "unsupported value"))).
  - discriminate.
  - discriminate.
  - reflexivity.
  - reflexivity.
Defined.

Lemma graceful_value_is_ignored_witness :
  localInviteUsersToTeam (exampleEnv None)
    {| Body := threeAddresses; Query_graceful := "true" |} =
  localInviteUsersToTeam (exampleEnv None)
    {| Body := threeAddresses; Query_graceful := "false" |}.
Proof.
  apply (graceful_value_is_ignored (exampleEnv None) threeAddresses
           "true" "false"); discriminate.
Defined.

Lemma handler_ignores_address_case_witness :
  localInviteUsersToTeam (exampleEnv None) reqGraceful =
  localInviteUsersToTeam (exampleEnv None) reqGracefulOtherCase.
Proof.
  apply (handler_ignores_address_case (exampleEnv None) reqGraceful
           reqGracefulOtherCase); reflexivity.
Defined.

Lemma rule_order_is_irrelevant_witness :
  isEmailAddressAllowed "user@a.com" ["a.com"; "a.com b.com"] =
  isEmailAddressAllowed "user@a.com" ["a.com b.com"; "a.com"].
Proof.
  apply (rule_order_is_irrelevant "user@a.com" ["a.com"; "a.com b.com"]
           ["a.com b.com"; "a.com"]).
  apply perm_swap.
Defined.

Lemma normalizeDomains_yields_bare_domains_witness :
  isDomainToken "corp.x.com" = true /\ isLower "corp.x.com" = true.
Proof.
  apply (normalizeDomains_yields_bare_domains "@Corp.X.com, y.com z.org"
           "corp.x.com").
  - reflexivity.
  - vm_compute. left. reflexivity.
Defined.

Lemma rule_is_skipped_iff_only_separators_witness :
  normalizeDomains " ,@ " = [] <-> isSeparators " ,@ " = true.
Proof.
  apply (rule_is_skipped_iff_only_separators " ,@ "). reflexivity.
Defined.

Lemma normalizeDomains_idempotent_witness :
  normalizeDomains (Join (normalizeDomains "@Corp.X.com, y.com z.org") " ") =
  normalizeDomains "@Corp.X.com, y.com z.org".
Proof.
  apply (normalizeDomains_idempotent "@Corp.X.com, y.com z.org"). reflexivity.
Defined.

Lemma rule_accepts_iff_listed_domain_witness :
  isEmailAddressAllowed "user@corp.x.com" ["@Corp.X.com, y.com z.org"] = true.
Proof.
  apply (rule_accepts_iff_listed_domain "user@corp.x.com"
           [("@", "Corp.X.com"); (", ", "y.com"); (" ", "z.org")] "");
    try reflexivity; [discriminate|].
  exists "Corp.X.com". split; [by left|]. by exists "user".
Defined.

Lemma accepted_address_ends_with_bare_domain_witness :
  exists p d,
    "user@b.com" = p +:+ "@" +:+ d /\ In d (normalizeDomains "a.com, B.com") /\
    isDomainToken d = true /\ isLower d = true.
Proof.
  apply (accepted_address_ends_with_bare_domain "user@b.com" "a.com, B.com").
  - reflexivity.
  - discriminate.
  - reflexivity.
Defined.

Lemma SidebarCategories_last_duplicate_wins_witness :
  SidebarCategories
    (resolverEnvWith
       [categoryNamed "favorites" "old"; categoryNamed "channels" "Channels";
        categoryNamed "favorites" "new"]
       ["favorites"; "favorites"; "gone"])
    memberA =
  inl [Some (categoryNamed "favorites" "new");
       Some (categoryNamed "favorites" "new"); None].
Proof.
  rewrite (SidebarCategories_last_duplicate_wins
             (resolverEnvWith
                [categoryNamed "favorites" "old";
                 categoryNamed "channels" "Channels";
                 categoryNamed "favorites" "new"]
                ["favorites"; "favorites"; "gone"])
             memberA
             {| Categories :=
                  [categoryNamed "favorites" "old";
                   categoryNamed "channels" "Channels";
                   categoryNamed "favorites" "new"];
                Order := ["favorites"; "favorites"; "gone"] |}
             eq_refl eq_refl eq_refl).
  reflexivity.
Defined.

Lemma SidebarCategories_identity_order_witness :
  SidebarCategories
    (resolverEnvWith [categoryOf "favorites"; categoryOf "channels"]
       ["favorites"; "channels"])
    memberA =
  inl [Some (categoryOf "favorites"); Some (categoryOf "channels")].
Proof.
  apply (SidebarCategories_identity_order
           (resolverEnvWith [categoryOf "favorites"; categoryOf "channels"]
              ["favorites"; "channels"])
           memberA
           {| Categories := [categoryOf "favorites"; categoryOf "channels"];
              Order := ["favorites"; "channels"] |}
           eq_refl eq_refl eq_refl).
  - apply List.NoDup_cons; [cbn; intros [Heq|[]]; discriminate Heq|].
    apply List.NoDup_cons; [intros []|]. apply List.NoDup_nil.
  - reflexivity.
Defined.

Lemma Roles_splits_joined_names_witness :
  Roles_ string echoRoles (resolverEnvWith [] [])
    (memberWithRoles "team_user team_admin") =
  inl ["team_user"; "team_admin"].
Proof.
  apply (Roles_splits_joined_names string echoRoles (resolverEnvWith [] [])
           (memberWithRoles "team_user team_admin")
           ["team_user"; "team_admin"]); reflexivity.
Defined.

Lemma Roles_asks_for_words_witness :
  exists names,
    Roles_ string echoRoles (resolverEnvWith [] [])
      (memberWithRoles "  team_user   team_admin ") = echoRoles names /\
    forallb isWord names = true /\
    (names = [] <->
     all_bytes asciiSpace
       (Roles (memberWithRoles "  team_user   team_admin ")) = true).
Proof.
  apply (Roles_asks_for_words string echoRoles (resolverEnvWith [] [])
           (memberWithRoles "  team_user   team_admin ")); reflexivity.
Defined.

Lemma localDeleteTeam_issues_one_delete_witness :
  List.filter isDeleteCall (team_trace (localDeleteTeam (exampleDeleteEnv false)))
    = [SoftDeleteTeamCall "team-a"].
Proof.
  apply (localDeleteTeam_issues_one_delete (exampleDeleteEnv false)).
  reflexivity.
Defined.

Lemma localCreateTeam_lowercases_email_witness :
  exists sent,
    List.filter isCreateCall
      (team_trace (localCreateTeam (exampleCreateEnv None))) =
      [CreateTeamCall sent] /\
    Team_Fields sent = Team_Fields (teamWithEmail "Admin@A.com") /\
    Team_Email sent = ToLower (Team_Email (teamWithEmail "Admin@A.com")) /\
    (isASCII (Team_Email (teamWithEmail "Admin@A.com")) = true ->
     isLower (Team_Email sent) = true).
Proof.
  apply (localCreateTeam_lowercases_email (exampleCreateEnv None)
           (teamWithEmail "Admin@A.com")).
  reflexivity.
Defined.

Lemma localCreateTeam_echoes_created_team_witness :
  team_Err (localCreateTeam (exampleCreateEnv (Some "broken pipe"))) = None /\
  In (EncodeCall {| Team_Fields := {| Team_Id := "new-id";
                                       Team_AllowedDomains := "a.com" |};
                    Team_Email := "admin@a.com" |})
     (team_trace (localCreateTeam (exampleCreateEnv (Some "broken pipe")))).
Proof.
  destruct (localCreateTeam_echoes_created_team
              (exampleCreateEnv (Some "broken pipe"))
              (teamWithEmail "Admin@A.com")
              {| Team_Fields := {| Team_Id := "new-id";
                                   Team_AllowedDomains := "a.com" |};
                 Team_Email := "admin@a.com" |}
              {| Team_Fields := {| Team_Id := "new-id";
                                   Team_AllowedDomains := "a.com" |};
                 Team_Email := "admin@a.com" |}
              eq_refl eq_refl)
    as (Herr & warn & rec & Htrace & _).
  split; [exact Herr|]. rewrite Htrace. right. right. by left.
Defined.
